(** * Flappy-Square: the programmatic environment [flappy_env.py]

    A shallow embedding of the [FlappyEnv] simulation: entity physics,
    obstacle spawning and lifecycle, scoring with difficulty escalation,
    collision detection, reward computation and the observation encoder.

    Number model.  Python [int] is [Z].  Python [float] is modelled by exact
    rationals [Q]: every statement below is about the arithmetic the program
    denotes, rounding of binary64 (and of the float32 observation array) is
    outside the model.  Equalities between rationals are [Qeq] ([==]).

    Library model.  Two library behaviours the program relies on are modelled
    from their documentation: [random.randint] of the process-wide [random]
    module, and [pygame.Rect] with [colliderect].

    Rendering ([_render], [close]) reads the state and does not change it; it
    is left out, as is the interactive loop of [flappy_square.py]. *)

From Stdlib Require Import ZArith QArith Qabs List Bool Lia Lqa.
Import ListNotations.

Local Open Scope Z_scope.

(** ** Constants (module level of [flappy_env.py]) *)

Definition WIDTH : Z := 480.
Definition HEIGHT : Z := 640.
Definition GRAVITY : Q := 35 # 100.
Definition FLAP_STRENGTH : Q := - (75 # 10).
Definition PIPE_INTERVAL_TICKS : Z := 90.
Definition PIPE_SPEED_START : Q := 3 # 1.
Definition GAP_START : Z := 170.
Definition GAP_MIN : Z := 100.
Definition GAP_DEC : Z := 4.
Definition SQUARE_SIZE : Z := 38.

(** The literal [0.15] of [self.pipe_speed += 0.15]. *)
Definition PIPE_SPEED_INC : Q := 15 # 100.

(** ** Python numerics *)

(** An [int] used where a [float] is expected. *)
Notation "'float' z" := (inject_Z z) (at level 9, only parsing).

(** [int(q)]: truncation towards zero. *)
Definition int (q : Q) : Z := Z.quot (Qnum q) (Zpos (Qden q)).

(** [a < b] on floats, as a boolean. *)
Definition Qltb (a b : Q) : bool :=
  Qnum a * QDen b <? Qnum b * QDen a.

(** ** The process-wide [random] module

    The generator state is the sequence of raw words it will produce and the
    number of words consumed so far.  [randint a b] raises [ValueError] on an
    empty range (here [None]) and otherwise maps the next raw word into
    [[a, b]], both ends included. *)

Record RandomState := mkRandom { raw : nat -> Z; drawn : nat }.

Definition randint (a b : Z) (g : RandomState) : option (Z * RandomState) :=
  if b <? a then None
  else Some (a + raw g (drawn g) mod (b - a + 1),
             mkRandom (raw g) (S (drawn g))).

(** ** [pygame.Rect]

    Integer rectangles; float arguments are truncated.  [colliderect] is
    pygame's overlap test: zero-sized rectangles collide with nothing,
    touching edges do not overlap. *)

Module Rect.

Record t := mk { x : Z; y : Z; w : Z; h : Z }.

Definition colliderect (A B : t) : bool :=
  if (w A =? 0) || (h A =? 0) || (w B =? 0) || (h B =? 0) then false
  else
    (Z.min (x A) (x A + w A) <? Z.max (x B) (x B + w B)) &&
    (Z.min (y A) (y A + h A) <? Z.max (y B) (y B + h B)) &&
    (Z.min (x B) (x B + w B) <? Z.max (x A) (x A + w A)) &&
    (Z.min (y B) (y B + h B) <? Z.max (y A) (y A + h A)).

End Rect.

(** ** [class _Square] *)

Module _Square.

Record t := mk { y : Q; vel : Q }.

(** [__init__] *)
Definition init : t := mk (float HEIGHT / 2) 0.

Definition flap (self : t) : t := mk (y self) FLAP_STRENGTH.

Definition update (self : t) : t :=
  let vel' := (vel self + GRAVITY)%Q in
  mk (y self + vel')%Q vel'.

Definition rect (self : t) : Rect.t :=
  Rect.mk (WIDTH / 4) (int (y self)) SQUARE_SIZE SQUARE_SIZE.

End _Square.

(** ** [class _Pipe] *)

Module _Pipe.

Record t := mk { x : Q; w : Z; gap_y : Z; gap_h : Z; passed : bool }.

(** [__init__(self, x, gap_y, gap_h, w=60)] *)
Definition init (x0 : Q) (gy gh : Z) : t := mk x0 60 gy gh false.

Definition update (self : t) (speed : Q) : t :=
  mk (x self - speed)%Q (w self) (gap_y self) (gap_h self) (passed self).

Definition set_passed (self : t) : t :=
  mk (x self) (w self) (gap_y self) (gap_h self) true.

Definition rects (self : t) : Rect.t * Rect.t :=
  (Rect.mk (int (x self)) 0 (w self) (gap_y self),
   Rect.mk (int (x self)) (gap_y self + gap_h self) (w self)
           (HEIGHT - (gap_y self + gap_h self))).

Definition off_screen (self : t) : bool :=
  Qltb (x self + float (w self)) 0.

(** The trailing edge [x + w]. *)
Definition trailing (self : t) : Q := (x self + float (w self))%Q.

(** [gap_y + gap_h / 2] *)
Definition gap_centre (self : t) : Q :=
  (float (gap_y self) + float (gap_h self) / 2)%Q.

End _Pipe.

(** ** [class FlappyEnv] *)

(** The observation array [v] of [_get_obs]. *)
Record Obs := mkObs { o0 : Q; o1 : Q; o2 : Q; o3 : Q }.

(** The object's attributes.  [np_random_seed] is the seed of the generator
    that [gym.Env.reset] keeps in [self.np_random]; the episode attributes are
    the ones [reset] assigns. *)
Record FlappyEnv := mkEnv {
  np_random_seed : option Z;
  square : _Square.t;
  pipes : list _Pipe.t;
  tick : Z;
  pipe_speed : Q;
  gap_h : Z;
  score : Z
}.

(** The tuple [step] returns: [(obs, reward, done, False, {"score": ...})]. *)
Record StepResult := mkStep {
  obs : Obs;
  reward : Q;
  terminated : bool;
  truncated : bool;
  info_score : Z
}.

(** [min(iterable, key=lambda p: p.x, default=None)]: the first item whose key
    is smallest. *)
Fixpoint min_from (best : _Pipe.t) (l : list _Pipe.t) : _Pipe.t :=
  match l with
  | [] => best
  | p :: l' =>
      min_from (if Qltb (_Pipe.x p) (_Pipe.x best) then p else best) l'
  end.

Definition min_by_x (l : list _Pipe.t) : option _Pipe.t :=
  match l with
  | [] => None
  | p :: l' => Some (min_from p l')
  end.

(** [p.x + p.w >= WIDTH // 4] *)
Definition upcoming (p : _Pipe.t) : bool :=
  Qle_bool (float (WIDTH / 4)) (_Pipe.trailing p).

Definition next_pipe (ps : list _Pipe.t) : option _Pipe.t :=
  min_by_x (filter upcoming ps).

Definition _get_obs (self : FlappyEnv) : Obs :=
  let '(horiz, vert, gh) :=
    match next_pipe (pipes self) with
    | None => (float WIDTH, 0%Q, gap_h self)
    | Some np =>
        ((_Pipe.trailing np - float (WIDTH / 4))%Q,
         (_Square.y (square self) - _Pipe.gap_centre np)%Q,
         _Pipe.gap_h np)
    end in
  mkObs (vert / (float HEIGHT / 2))%Q
        (horiz / float WIDTH)%Q
        (_Square.vel (square self) / 10)%Q
        (float (gh - GAP_MIN) / float (GAP_START - GAP_MIN))%Q.

(** [super().reset(seed=seed)]: a given seed reseeds [self.np_random], no seed
    keeps the generator the object has. *)
Definition seed_np_random (seed : option Z) (self : FlappyEnv) : option Z :=
  match seed with
  | Some s => Some s
  | None => np_random_seed self
  end.

Definition reset (seed : option Z) (self : FlappyEnv) : Obs * FlappyEnv :=
  let self' :=
    mkEnv (seed_np_random seed self) _Square.init [] 0 PIPE_SPEED_START
          GAP_START 0 in
  (_get_obs self', self').

(** *** The body of [step], phase by phase *)

(** [# spawn pipes] *)
Definition spawn (self : FlappyEnv) (g : RandomState)
  : option (FlappyEnv * RandomState) :=
  if tick self mod PIPE_INTERVAL_TICKS =? 0 then
    match randint 60 (HEIGHT - 60 - gap_h self) g with
    | None => None
    | Some (gy, g') =>
        Some (mkEnv (np_random_seed self) (square self)
                    (pipes self ++ [_Pipe.init (float WIDTH) gy (gap_h self)])
                    (tick self) (pipe_speed self) (gap_h self) (score self),
              g')
    end
  else Some (self, g).

(** What the pipe loop mutates besides the pipes: [self.score], the local
    [reward], [self.pipe_speed] and [self.gap_h]. *)
Record Tally := mkTally {
  t_score : Z;
  t_reward : Q;
  t_speed : Q;
  t_gap : Z
}.

(** The score callback: the four assignments under [pipe.passed = True]. *)
Definition on_score (c : Tally) : Tally :=
  mkTally (t_score c + 1) (t_reward c + 1)%Q (t_speed c + PIPE_SPEED_INC)%Q
          (Z.max GAP_MIN (t_gap c - GAP_DEC)).

(** [not pipe.passed and pipe.x + pipe.w < WIDTH // 4] *)
Definition crossing (pipe : _Pipe.t) : bool :=
  negb (_Pipe.passed pipe) && Qltb (_Pipe.trailing pipe) (float (WIDTH / 4)).

(** One iteration of [for pipe in list(self.pipes)].  The result is the pipe
    as it stays in [self.pipes], or [None] when it is removed. *)
Definition visit (pipe : _Pipe.t) (c : Tally) : option _Pipe.t * Tally :=
  let pipe := _Pipe.update pipe (t_speed c) in
  let '(pipe, c) :=
    if crossing pipe then (_Pipe.set_passed pipe, on_score c) else (pipe, c) in
  (if _Pipe.off_screen pipe then None else Some pipe, c).

(** [# update pipes]: the loop over the snapshot, in list order. *)
Fixpoint update_pipes (snapshot : list _Pipe.t) (c : Tally)
  : list _Pipe.t * Tally :=
  match snapshot with
  | [] => ([], c)
  | pipe :: rest =>
      let '(kept, c1) := visit pipe c in
      let '(ps, c2) := update_pipes rest c1 in
      (match kept with Some p => p :: ps | None => ps end, c2)
  end.

(** [# collision detection] *)
Definition hits (sq : _Square.t) (p : _Pipe.t) : bool :=
  let '(top, bottom) := _Pipe.rects p in
  Rect.colliderect (_Square.rect sq) top ||
  Rect.colliderect (_Square.rect sq) bottom.

Definition collided (sq : _Square.t) (ps : list _Pipe.t) : bool :=
  Qltb (_Square.y sq) 0 ||
  Qltb (float HEIGHT) (_Square.y sq + float SQUARE_SIZE) ||
  existsb (hits sq) ps.

(** [# gap-center reward shaping] *)
Definition proximity_reward (sq : _Square.t) (np : _Pipe.t) : Q :=
  ((1 # 10) *
   (1 - Qabs (_Square.y sq - _Pipe.gap_centre np) / (float HEIGHT / 2)))%Q.

Definition shaped (sq : _Square.t) (ps : list _Pipe.t) (r : Q) : Q :=
  match next_pipe ps with
  | Some np => (r + proximity_reward sq np)%Q
  | None => r
  end.

(** [step(self, action)].  [None] is the [ValueError] of [random.randint]. *)
Definition step (action : Z) (self : FlappyEnv) (g : RandomState)
  : option (StepResult * FlappyEnv * RandomState) :=
  let reward0 := (- (1 # 100))%Q in
  let sq := if action =? 1 then _Square.flap (square self) else square self in
  let sq := _Square.update sq in
  match spawn self g with
  | None => None
  | Some (self1, g') =>
      let '(ps, c) :=
        update_pipes (pipes self1)
          (mkTally (score self1) reward0 (pipe_speed self1) (gap_h self1)) in
      let done := collided sq ps in
      let reward1 := if done then (- (1 # 1))%Q else t_reward c in
      let reward2 := shaped sq ps reward1 in
      let self' :=
        mkEnv (np_random_seed self1) sq ps (tick self1 + 1) (t_speed c)
              (t_gap c) (t_score c) in
      Some (mkStep (_get_obs self') reward2 done false (score self'),
            self', g')
  end.

(** ** Running an episode *)

Definition NONE : Z := 0.
Definition FLAP : Z := 1.

(** A fixed sequence of actions, one [step] each; the results in order. *)
Fixpoint steps (actions : list Z) (self : FlappyEnv) (g : RandomState)
  : option (list StepResult * FlappyEnv * RandomState) :=
  match actions with
  | [] => Some ([], self, g)
  | a :: rest =>
      match step a self g with
      | None => None
      | Some (r, self', g') =>
          match steps rest self' g' with
          | None => None
          | Some (rs, self'', g'') => Some (r :: rs, self'', g'')
          end
      end
  end.

(** [reset(seed=seed)] and then the actions: the first observation, the step
    results, the final object and generator. *)
Definition run (seed : option Z) (actions : list Z) (self : FlappyEnv)
  (g : RandomState)
  : option (Obs * list StepResult * FlappyEnv * RandomState) :=
  let '(ob, self0) := reset seed self in
  match steps actions self0 g with
  | None => None
  | Some (rs, self', g') => Some (ob, rs, self', g')
  end.

(** The object as [__init__] leaves it: no generator seeded yet.  The episode
    attributes do not exist before the first [reset], which assigns every one
    of them without reading any; the values here are never read. *)
Definition constructed : FlappyEnv :=
  mkEnv None _Square.init [] 0 PIPE_SPEED_START GAP_START 0.

(** A generator whose raw words are all [k]. *)
Definition constant_random (k : Z) : RandomState := mkRandom (fun _ => k) 0.

(** The states an object can be in: after a [reset], and after any [step] that
    returned, whatever the actions and the state of the [random] module. *)
Inductive reachable : FlappyEnv -> Prop :=
| reach_reset seed self : reachable (snd (reset seed self))
| reach_step a self g r self' g' :
    reachable self -> step a self g = Some (r, self', g') -> reachable self'.

(** * Vocabulary of the statements *)

(** Pipes whose [passed] flag is still [False]. *)
Definition unpassed (ps : list _Pipe.t) : Z :=
  Z.of_nat (length (filter (fun p => negb (_Pipe.passed p)) ps)).

(** Pipes created up to (not including) tick [t]: one per multiple of the
    spawn interval. *)
Definition spawned (t : Z) : Z :=
  (t + (PIPE_INTERVAL_TICKS - 1)) / PIPE_INTERVAL_TICKS.

(** What holds of every live pipe between two steps: the default width, a
    position not right of the screen edge, the [passed] flag set exactly when
    the trailing edge is left of [WIDTH // 4], a gap height within its
    bounds. *)
Definition pipe_ok (p : _Pipe.t) : Prop :=
  _Pipe.w p = 60 /\
  (_Pipe.x p <= float WIDTH)%Q /\
  (_Pipe.passed p = true <-> (_Pipe.trailing p < float (WIDTH / 4))%Q) /\
  GAP_MIN <= _Pipe.gap_h p <= GAP_START.

(** Speed and gap height are functions of the score. *)
Definition tally_ok (c : Tally) : Prop :=
  0 <= t_score c /\
  (t_speed c == PIPE_SPEED_START + PIPE_SPEED_INC * float (t_score c))%Q /\
  t_gap c = Z.max GAP_MIN (GAP_START - GAP_DEC * t_score c).

(** The score, speed and gap height of the object, as a tally. *)
Definition env_tally (self : FlappyEnv) : Tally :=
  mkTally (score self) 0 (pipe_speed self) (gap_h self).

(** The invariant of an episode.  Its last part counts pipes: every pipe
    created so far is either live and not yet passed, or counted in the
    score. *)
Definition env_ok (self : FlappyEnv) : Prop :=
  0 <= tick self /\
  tally_ok (env_tally self) /\
  Forall pipe_ok (pipes self) /\
  score self + unpassed (pipes self) = spawned (tick self).

(** A tally only moves in the direction of harder play. *)
Definition harder (c c' : Tally) : Prop :=
  t_score c <= t_score c' /\
  (t_speed c <= t_speed c')%Q /\
  t_gap c' <= t_gap c.

(** [unpassed] of what one loop iteration leaves of its pipe. *)
Definition unpassed_kept (o : option _Pipe.t) : Z :=
  match o with
  | Some p => unpassed [p]
  | None => 0
  end.

(** Two observation arrays with equal components. *)
Definition obs_eq (a b : Obs) : Prop :=
  (o0 a == o0 b)%Q /\ (o1 a == o1 b)%Q /\ (o2 a == o2 b)%Q /\ (o3 a == o3 b)%Q.

(** The generator after one word has been consumed. *)
Definition advance (g : RandomState) : RandomState :=
  mkRandom (raw g) (S (drawn g)).


(** The gap offset the next draw gives at the starting gap height. *)
Definition first_gap_y (g : RandomState) : Z :=
  60 + raw g (drawn g) mod (HEIGHT - 60 - GAP_START - 60 + 1).

(** The pipe of tick 0, [n] ticks later at the starting speed. *)
Definition first_pipe (gy : Z) (n : nat) : _Pipe.t :=
  _Pipe.mk (Nat.iter n (fun x => x - PIPE_SPEED_START)%Q (float WIDTH))
           60 gy GAP_START false.

(** [self.square.flap()] under [if action == 1]. *)
Definition act (a : Z) (sq : _Square.t) : _Square.t :=
  if a =? 1 then _Square.flap sq else sq.

(** The object [n] ticks into an episode, while the pipe of tick 0 is the
    only one and has not been passed. *)
Definition early_state (np : option Z) (sq : _Square.t) (gy : Z) (n : nat)
  : FlappyEnv :=
  mkEnv np sq [first_pipe gy n] (Z.of_nat n) PIPE_SPEED_START GAP_START 0.

(** What a step returns when it leaves [self'] and no pipe was passed. *)
Definition result_in (self' : FlappyEnv) : StepResult :=
  let done := collided (square self') (pipes self') in
  mkStep (_get_obs self')
         (shaped (square self') (pipes self')
                 (if done then - (1 # 1) else - (1 # 100))%Q)
         done false (score self').

(** The square after the actions. *)
Definition fly (actions : list Z) (sq : _Square.t) : _Square.t :=
  fold_left (fun s a => _Square.update (act a s)) actions sq.

(** The results of the actions, from [early_state np sq gy n]. *)
Fixpoint early_results (actions : list Z) (np : option Z) (sq : _Square.t)
  (gy : Z) (n : nat) : list StepResult :=
  match actions with
  | [] => []
  | a :: rest =>
      let sq' := _Square.update (act a sq) in
      result_in (early_state np sq' gy (S n))
      :: early_results rest np sq' gy (S n)
  end.

(** The square [k] updates after [__init__], none of them with a flap:
    [vel = k * GRAVITY] and [y = 320 + GRAVITY * k * (k + 1) / 2]. *)
Definition falling (k : nat) (sq : _Square.t) : Prop :=
  (_Square.vel sq == GRAVITY * float (Z.of_nat k))%Q /\
  (_Square.y sq
   == (320 # 1) + (GRAVITY / 2) * float (Z.of_nat k) * (float (Z.of_nat k) + 1))%Q.

(** The run of the scenario: seed 42, [n] times [step(0)], the first draw of
    the generator giving the gap offset 60. *)
Definition free_fall (n : nat) :=
  run (Some 42) (repeat NONE n) constructed (constant_random 0).

(** What the specification asks of a [step(a)] that follows a step which
    returned [last] with [done = True]: it fails, or it changes nothing and
    returns the last observation again. *)
Definition rejected (last : StepResult) (a : Z) (self : FlappyEnv)
  (g : RandomState) : Prop :=
  step a self g = None \/
  exists r, step a self g = Some (r, self, g) /\ obs r = obs last.

(** The run that leaves the screen at the top: seed 42, [n] times [step(1)],
    gap offset 60. *)
Definition climb (n : nat) :=
  run (Some 42) (repeat FLAP n) constructed (constant_random 0).

(** What the caller of an episode sees: the first observation and the step
    results. *)
Definition outputs
  (res : option (Obs * list StepResult * FlappyEnv * RandomState))
  : option (Obs * list StepResult) :=
  match res with
  | Some (ob, rs, _, _) => Some (ob, rs)
  | None => None
  end.

(** [self] with another generator in [self.np_random]. *)
Definition with_np_random (np : option Z) (self : FlappyEnv) : FlappyEnv :=
  mkEnv np (square self) (pipes self) (tick self) (pipe_speed self)
        (gap_h self) (score self).

(** * Vocabulary of the further properties *)

(** The shape [__init__] and the draw of [step] give a pipe: the default
    width, and a gap that lies on the screen, 60 away from both edges. *)
Definition gap_fits (p : _Pipe.t) : Prop :=
  _Pipe.w p = 60 /\
  60 <= _Pipe.gap_y p /\
  _Pipe.gap_y p + _Pipe.gap_h p <= HEIGHT - 60 /\
  GAP_MIN <= _Pipe.gap_h p <= GAP_START.

(** Ticks since the last spawn tick, that tick included: 1 right after a
    spawn, 90 just before the next one. *)
Definition phase (t : Z) : Z := (t - 1) mod PIPE_INTERVAL_TICKS + 1.

(** A live pipe at tick [t]: not off screen, and at least as far left as a
    pipe that has moved at the starting speed since the last spawn. *)
Definition placed (t : Z) (p : _Pipe.t) : Prop :=
  _Pipe.off_screen p = false /\
  (_Pipe.x p <= float (WIDTH - 3 * phase t))%Q.

(** The distance a pipe covers between two spawns at the starting speed. *)
Definition PIPE_SPACING : Q := float PIPE_INTERVAL_TICKS * PIPE_SPEED_START.

(** What a pipe gave up of that distance to its successor: the speed
    increment of the tick on which it was passed. *)
Definition slack (p : _Pipe.t) : Q :=
  if _Pipe.passed p then PIPE_SPEED_INC else 0.

(** The pipes lie left to right in list order, the first one not left of
    [b], each at least [PIPE_SPACING - slack] right of the one before. *)
Fixpoint spaced_from (b : Q) (ps : list _Pipe.t) : Prop :=
  match ps with
  | [] => True
  | p :: rest =>
      (b <= _Pipe.x p)%Q /\
      spaced_from (_Pipe.x p + PIPE_SPACING - slack p) rest
  end.

Definition spaced (ps : list _Pipe.t) : Prop :=
  match ps with
  | [] => True
  | p :: rest => spaced_from (_Pipe.x p + PIPE_SPACING - slack p) rest
  end.

(** [q] is at least 269.85 right of [p]. *)
Definition well_ahead (p q : _Pipe.t) : Prop :=
  (_Pipe.x p + (PIPE_SPACING - PIPE_SPEED_INC) <= _Pipe.x q)%Q.

(** What the further invariant of an episode says of the live pipes. *)
Definition pipes_ok (self : FlappyEnv) : Prop :=
  Forall gap_fits (pipes self) /\
  Forall (placed (tick self)) (pipes self) /\
  spaced (pipes self) /\
  (FLAP_STRENGTH + GRAVITY <= _Square.vel (square self))%Q.

(** The pipe as one loop iteration leaves it, removed or not. *)
Definition moved (pipe : _Pipe.t) (c : Tally) : _Pipe.t :=
  let pipe := _Pipe.update pipe (t_speed c) in
  if crossing pipe then _Pipe.set_passed pipe else pipe.

(** The columns of the square's rectangle and of the pipe's rectangles
    overlap. *)
Definition in_column (p : _Pipe.t) : Prop :=
  int (_Pipe.x p) < WIDTH / 4 + SQUARE_SIZE /\
  WIDTH / 4 < int (_Pipe.x p) + _Pipe.w p.

(** The square's rectangle lies between the pipe's two rectangles. *)
Definition in_gap (sq : _Square.t) (p : _Pipe.t) : Prop :=
  _Pipe.gap_y p <= int (_Square.y sq) /\
  int (_Square.y sq) + SQUARE_SIZE <= _Pipe.gap_y p + _Pipe.gap_h p.

(** The shaping term of a step: that of the next pipe, nothing without
    one. *)
Definition shaping (sq : _Square.t) (ps : list _Pipe.t) : Q :=
  match next_pipe ps with
  | Some np => proximity_reward sq np
  | None => 0
  end.

(** [self.observation_space = spaces.Box(-high, high)] with
    [high = [1, 1, 1, 1]]: the arrays whose components all lie in
    [[-1, 1]]. *)
Definition in_observation_space (o : Obs) : Prop :=
  (- (1) <= o0 o <= 1)%Q /\ (- (1) <= o1 o <= 1)%Q /\
  (- (1) <= o2 o <= 1)%Q /\ (- (1) <= o3 o <= 1)%Q.

(** Two pipes that differ at most in their gap offset. *)
Definition same_pipe (p q : _Pipe.t) : Prop :=
  _Pipe.x p = _Pipe.x q /\ _Pipe.w p = _Pipe.w q /\
  _Pipe.gap_h p = _Pipe.gap_h q /\ _Pipe.passed p = _Pipe.passed q.

(** Two objects that differ at most in the square, in the gap offsets of
    their pipes and in [np_random]. *)
Definition same_course (s1 s2 : FlappyEnv) : Prop :=
  tick s1 = tick s2 /\ score s1 = score s2 /\
  pipe_speed s1 = pipe_speed s2 /\ gap_h s1 = gap_h s2 /\
  Forall2 same_pipe (pipes s1) (pipes s2).

(** The first 140 ticks of an episode: nothing has been scored, speed and
    gap height are the starting ones, no pipe is further left than the pipe
    of tick 0, which is the first of the list. *)
Definition quiet (self : FlappyEnv) : Prop :=
  (tick self = 0 -> pipes self = []) /\
  (tick self <= 140 ->
   score self = 0 /\
   pipe_speed self = PIPE_SPEED_START /\
   gap_h self = GAP_START /\
   Forall (fun p => (float (540 - 3 * tick self) <= _Pipe.trailing p)%Q)
          (pipes self) /\
   (1 <= tick self ->
    exists p rest,
      pipes self = p :: rest /\
      (_Pipe.trailing p == float (540 - 3 * tick self))%Q)).

(** ** The playback loop of [play_agent.py] *)

(** What the loop can raise: the [ValueError] of [random.randint], or the
    [SystemExit] of [_render] when the window is closed. *)
Inductive Raised := ValueError | SystemExit.

(** [env.step(action)] with [render_mode="human"]: the step, then [_render],
    which polls the event queue and raises [SystemExit] on a [QUIT] event;
    drawing changes no state. *)
Definition step_human (quit : bool) (action : Z) (self : FlappyEnv)
  (g : RandomState) : Raised + (StepResult * FlappyEnv * RandomState) :=
  match step action self g with
  | None => inl ValueError
  | Some res => if quit then inl SystemExit else inr res
  end.

(** What the loop does to the world, in order: a call of [env.step] on the
    object as it is then, a [print] of a score, a call of [env.reset]. *)
Inductive Event :=
| Stepped (self : FlappyEnv) (action : Z)
| Printed (s : Z)
| ResetCalled.

Section Play.

(** [model.predict(obs, deterministic=True)] of the loaded policy. *)
Variable predict : Obs -> Z.

(** Whether the event queue holds a [QUIT] when the [k]-th step renders. *)
Variable quits : nat -> bool.

(** [fuel] iterations of [while True], the [k]-th step being next.  The
    result is what was done and how it ended: an exception, or the loop
    still running with its object, the generator and [obs]. *)
Fixpoint play (fuel k : nat) (self : FlappyEnv) (g : RandomState) (ob : Obs)
  : list Event * (Raised + (FlappyEnv * RandomState * Obs)) :=
  match fuel with
  | O => ([], inr (self, g, ob))
  | S fuel' =>
      let action := predict ob in
      match step_human (quits k) action self g with
      | inl e => ([Stepped self action], inl e)
      | inr (r, self', g') =>
          if terminated r || truncated r then
            let '(ob', self0) := reset None self' in
            let '(log, out) := play fuel' (S k) self0 g' ob' in
            (Stepped self action :: Printed (info_score r) :: ResetCalled
             :: log, out)
          else
            let '(log, out) := play fuel' (S k) self' g' (obs r) in
            (Stepped self action :: log, out)
      end
  end.

(** The script from [obs, _ = env.reset()] on. *)
Definition play_agent (fuel : nat) (self : FlappyEnv) (g : RandomState)
  : list Event * (Raised + (FlappyEnv * RandomState * Obs)) :=
  let '(ob, self0) := reset None self in
  play fuel 0 self0 g ob.

End Play.

(** The episode of the object has not ended: its square collides with
    nothing. *)
Definition alive (self : FlappyEnv) : Prop :=
  collided (square self) (pipes self) = false.

(** Every [env.step] of a log is made on a reachable object whose episode
    has not ended. *)
Definition steps_alive (log : list Event) : Prop :=
  Forall (fun e => match e with
                   | Stepped self _ => reachable self /\ alive self
                   | _ => True
                   end) log.

(** * Properties *)

(** ** Comparisons and constants *)

Lemma Qltb_lt (a b : Q) : Qltb a b = true <-> (a < b)%Q.
Proof. unfold Qltb, Qlt. apply Z.ltb_lt. Qed.

Lemma Qltb_ge (a b : Q) : Qltb a b = false <-> (b <= a)%Q.
Proof. unfold Qltb, Qle. apply Z.ltb_ge. Qed.

Lemma Qle_bool_gt (a b : Q) : Qle_bool a b = false <-> (b < a)%Q.
Proof.
  split; intro H.
  - apply Qnot_le_lt; intro C. apply Qle_bool_iff in C. congruence.
  - destruct (Qle_bool a b) eqn:E; [|reflexivity].
    apply Qle_bool_iff in E. exfalso. apply (Qlt_not_le _ _ H E).
Qed.

Lemma quarter_width : float (WIDTH / 4) = (120 # 1).
Proof. reflexivity. Qed.

Lemma float_width : float WIDTH = (480 # 1).
Proof. reflexivity. Qed.

Lemma upcoming_true (p : _Pipe.t) :
  upcoming p = true <-> (120 # 1 <= _Pipe.trailing p)%Q.
Proof. unfold upcoming. rewrite quarter_width. apply Qle_bool_iff. Qed.

Lemma upcoming_false (p : _Pipe.t) :
  upcoming p = false <-> (_Pipe.trailing p < 120 # 1)%Q.
Proof. unfold upcoming. rewrite quarter_width. apply Qle_bool_gt. Qed.

(** ** The invariant of an episode *)

Lemma harder_refl c : harder c c.
Proof. unfold harder. split; [lia|]. split; [apply Qle_refl | lia]. Qed.

Lemma harder_trans c1 c2 c3 : harder c1 c2 -> harder c2 c3 -> harder c1 c3.
Proof.
  unfold harder. intros (A1 & A2 & A3) (B1 & B2 & B3).
  split; [lia|]. split; [eapply Qle_trans; eauto | lia].
Qed.

Lemma tally_ok_speed_pos c : tally_ok c -> (3 # 1 <= t_speed c)%Q.
Proof.
  intros (Hs & Hv & _). rewrite Hv. unfold PIPE_SPEED_START, PIPE_SPEED_INC.
  assert (H : (0 <= float (t_score c))%Q) by (unfold Qle; simpl; lia).
  revert H. generalize (float (t_score c)). intros q H. lra.
Qed.

Lemma on_score_ok c : tally_ok c -> tally_ok (on_score c) /\ harder c (on_score c).
Proof.
  intros (Hs & Hv & Hg). unfold tally_ok, harder, on_score.
  cbn [t_score t_speed t_gap t_reward].
  unfold GAP_MIN, GAP_START, GAP_DEC, PIPE_SPEED_START, PIPE_SPEED_INC in *.
  split; [split; [lia | split] | split; [lia | split]].
  - rewrite inject_Z_plus, Hv. change (float 1) with 1%Q. ring.
  - lia.
  - clear Hv. lra.
  - lia.
Qed.

(** *** One iteration of the pipe loop *)

Lemma unpassed_one p : unpassed [p] = if _Pipe.passed p then 0 else 1.
Proof. unfold unpassed; simpl. destruct (_Pipe.passed p); reflexivity. Qed.

Lemma unpassed_app ps qs : unpassed (ps ++ qs) = unpassed ps + unpassed qs.
Proof.
  unfold unpassed. rewrite filter_app, length_app. lia.
Qed.

Lemma unpassed_cons p ps : unpassed (p :: ps) = unpassed [p] + unpassed ps.
Proof. apply (unpassed_app [p] ps). Qed.

Lemma crossing_true p :
  crossing p = true <->
  _Pipe.passed p = false /\ (_Pipe.trailing p < 120 # 1)%Q.
Proof.
  unfold crossing. rewrite quarter_width, andb_true_iff, negb_true_iff, Qltb_lt.
  tauto.
Qed.

Lemma off_screen_true p :
  _Pipe.off_screen p = true <-> (_Pipe.trailing p < 0)%Q.
Proof. unfold _Pipe.off_screen, _Pipe.trailing. apply Qltb_lt. Qed.

Lemma trailing_update p v :
  (_Pipe.trailing (_Pipe.update p v) == _Pipe.trailing p - v)%Q.
Proof. unfold _Pipe.trailing, _Pipe.update; simpl. ring. Qed.

Lemma trailing_set_passed p :
  _Pipe.trailing (_Pipe.set_passed p) = _Pipe.trailing p.
Proof. reflexivity. Qed.

Lemma visit_ok p c o c' :
  tally_ok c -> pipe_ok p -> visit p c = (o, c') ->
  tally_ok c' /\ harder c c' /\
  (forall p', o = Some p' -> pipe_ok p') /\
  t_score c' + unpassed_kept o = t_score c + unpassed [p].
Proof.
  intros Hc (Hw & Hx & Hp & Hg) Hv.
  pose proof (tally_ok_speed_pos c Hc) as Hpos.
  unfold visit in Hv.
  set (p1 := _Pipe.update p (t_speed c)) in *.
  assert (Ht1 : (_Pipe.trailing p1 == _Pipe.trailing p - t_speed c)%Q)
    by apply trailing_update.
  assert (Hx1 : (_Pipe.x p1 <= float WIDTH)%Q).
  { unfold p1, _Pipe.update; simpl. rewrite float_width in *. lra. }
  rewrite quarter_width in Hp.
  destruct (crossing p1) eqn:Hcr.
  - apply crossing_true in Hcr. destruct Hcr as (Hf & Hlt).
    change (_Pipe.passed p1) with (_Pipe.passed p) in Hf.
    destruct (on_score_ok c Hc) as (Hc1 & Hh).
    assert (Hone : unpassed [p] = 1) by (rewrite unpassed_one, Hf; reflexivity).
    destruct (_Pipe.off_screen (_Pipe.set_passed p1)) eqn:Hoff;
      inversion Hv; subst o c'; clear Hv;
      (split; [exact Hc1 | split; [exact Hh | split]]).
    + intros p' E; discriminate.
    + simpl. rewrite Hone. lia.
    + intros p' E; inversion E; subst p'. unfold pipe_ok.
      rewrite trailing_set_passed, quarter_width. simpl.
      repeat split; auto; try lia.
    + simpl. rewrite Hone, unpassed_one. simpl. lia.
  - assert (Hflag : _Pipe.passed p = true <-> (_Pipe.trailing p1 < 120 # 1)%Q).
    { split; intro H.
      - apply Hp in H. rewrite Ht1. lra.
      - destruct (_Pipe.passed p) eqn:Hf; [reflexivity|].
        assert (crossing p1 = true) by (apply crossing_true; split; assumption).
        congruence. }
    destruct (_Pipe.off_screen p1) eqn:Hoff;
      inversion Hv; subst o c'; clear Hv;
      (split; [exact Hc | split; [apply harder_refl | split]]).
    + intros p' E; discriminate.
    + apply off_screen_true in Hoff.
      assert (Hf : _Pipe.passed p = true) by (apply Hflag; lra).
      simpl. rewrite unpassed_one, Hf. lia.
    + intros p' E; inversion E; subst p'. unfold pipe_ok.
      rewrite quarter_width.
      split; [exact Hw | split; [exact Hx1 | split; [exact Hflag | exact Hg]]].
    + simpl. rewrite !unpassed_one. reflexivity.
Qed.

(** *** The whole loop *)

Lemma update_pipes_ok ps : forall c ps' c',
  tally_ok c -> Forall pipe_ok ps -> update_pipes ps c = (ps', c') ->
  tally_ok c' /\ harder c c' /\ Forall pipe_ok ps' /\
  t_score c' + unpassed ps' = t_score c + unpassed ps.
Proof.
  induction ps as [|p ps IH]; intros c ps' c' Hc Hps Hu; simpl in Hu.
  - inversion Hu; subst.
    split; [exact Hc|]. split; [apply harder_refl|]. split; [constructor|].
    reflexivity.
  - inversion Hps as [|? ? Hp Hrest]; subst.
    destruct (visit p c) as [o c1] eqn:Hv.
    destruct (update_pipes ps c1) as [qs c2] eqn:Hr.
    destruct (visit_ok p c o c1 Hc Hp Hv) as (Hc1 & Hh1 & Ho & Hn1).
    destruct (IH c1 qs c2 Hc1 Hrest Hr) as (Hc2 & Hh2 & Hqs & Hn2).
    inversion Hu; subst ps' c'; clear Hu.
    split; [exact Hc2|]. split; [eapply harder_trans; eauto|].
    rewrite (unpassed_cons p ps).
    destruct o as [p'|]; simpl in Hn1.
    + split; [constructor; auto|]. rewrite (unpassed_cons p' qs). lia.
    + split; [exact Hqs|]. lia.
Qed.

(** *** Spawning *)

Lemma randint_range a b g :
  a <= b ->
  exists v, randint a b g = Some (v, mkRandom (raw g) (S (drawn g))) /\
            a <= v <= b.
Proof.
  intro H. unfold randint.
  destruct (b <? a) eqn:E; [apply Z.ltb_lt in E; lia|].
  eexists; split; [reflexivity|].
  pose proof (Z.mod_pos_bound (raw g (drawn g)) (b - a + 1)). lia.
Qed.

Lemma randint_empty a b g : b < a -> randint a b g = None.
Proof.
  intro H. unfold randint. apply Z.ltb_lt in H. rewrite H. reflexivity.
Qed.

Lemma spawned_succ t :
  0 <= t ->
  spawned (t + 1) =
  spawned t + (if t mod PIPE_INTERVAL_TICKS =? 0 then 1 else 0).
Proof.
  intro H. unfold spawned, PIPE_INTERVAL_TICKS.
  destruct (t mod 90 =? 0) eqn:E;
    [apply Z.eqb_eq in E | apply Z.eqb_neq in E];
    Z.div_mod_to_equations; lia.
Qed.

Lemma new_pipe_ok gy gh :
  GAP_MIN <= gh <= GAP_START -> pipe_ok (_Pipe.init (float WIDTH) gy gh).
Proof.
  intro H. unfold pipe_ok, _Pipe.init, _Pipe.trailing; simpl.
  split; [reflexivity|]. split; [apply Qle_refl|]. split; [|exact H].
  split; [discriminate|]. intro C. exfalso. revert C. apply Qle_not_lt.
  unfold Qle; simpl. lia.
Qed.

Lemma tally_ok_gap c : tally_ok c -> GAP_MIN <= t_gap c <= GAP_START.
Proof.
  intros (Hs & _ & Hg). rewrite Hg. unfold GAP_MIN, GAP_START, GAP_DEC. lia.
Qed.

Lemma spawn_ok self g :
  env_ok self ->
  exists self1 g1,
    spawn self g = Some (self1, g1) /\
    np_random_seed self1 = np_random_seed self /\
    square self1 = square self /\
    tick self1 = tick self /\
    env_tally self1 = env_tally self /\
    Forall pipe_ok (pipes self1) /\
    score self1 + unpassed (pipes self1) = spawned (tick self + 1).
Proof.
  intros (Ht & Hc & Hps & Hn).
  pose proof (tally_ok_gap _ Hc) as Hg. simpl in Hg.
  pose proof (spawned_succ _ Ht) as Hs.
  unfold spawn. destruct (tick self mod PIPE_INTERVAL_TICKS =? 0).
  - destruct (randint_range 60 (HEIGHT - 60 - gap_h self) g) as (v & Hr & Hv).
    { unfold HEIGHT, GAP_START in *. lia. }
    rewrite Hr. do 2 eexists. split; [reflexivity|]. simpl.
    repeat split; auto.
    + apply Forall_app. split; [exact Hps|].
      constructor; [|constructor]. apply new_pipe_ok; exact Hg.
    + rewrite unpassed_app, unpassed_one. simpl. lia.
  - do 2 eexists. split; [reflexivity|]. repeat split; auto. lia.
Qed.

(** *** A whole step *)

Lemma step_ok a self g :
  env_ok self ->
  exists r self' g',
    step a self g = Some (r, self', g') /\
    env_ok self' /\
    tick self' = tick self + 1 /\
    harder (env_tally self) (env_tally self') /\
    square self' =
      _Square.update
        (if a =? 1 then _Square.flap (square self) else square self).
Proof.
  intro Hok.
  destruct (spawn_ok self g Hok) as (s1 & g1 & Hsp & _ & _ & Ht1 & Hc1 & Hps1 & Hn1).
  destruct Hok as (Ht & Hc & _ & _).
  unfold step. rewrite Hsp.
  assert (Htal : mkTally (score s1) (- (1 # 100)) (pipe_speed s1) (gap_h s1)
                 = mkTally (t_score (env_tally self)) (- (1 # 100))
                           (t_speed (env_tally self)) (t_gap (env_tally self))).
  { rewrite <- Hc1. reflexivity. }
  assert (Hsc : score s1 = score self)
    by exact (f_equal t_score Hc1).
  rewrite Htal.
  match goal with |- context [update_pipes ?l ?c] =>
    destruct (update_pipes l c) as [ps c'] eqn:Hu;
    destruct (update_pipes_ok l c ps c') as (Hc' & Hh & Hps' & Hn'); auto
  end.
  do 3 eexists. split; [reflexivity|]. simpl in *.
  split; [|split; [lia | split; [exact Hh | reflexivity]]].
  unfold env_ok; simpl. split; [lia|]. split; [exact Hc'|].
  split; [exact Hps'|]. rewrite Ht1. rewrite Hsc in Hn1. lia.
Qed.

Lemma reachable_ok self : reachable self -> env_ok self.
Proof.
  induction 1 as [seed self | a self g r self' g' _ IH Hstep].
  - unfold env_ok, tally_ok; simpl.
    split; [lia|]. split; [|split; [constructor | reflexivity]].
    split; [lia|]. split; [|reflexivity].
    unfold PIPE_SPEED_START, PIPE_SPEED_INC. reflexivity.
  - destruct (step_ok a self g IH) as (r0 & s0 & g0 & E & Hok & _).
    rewrite E in Hstep. inversion Hstep; subst. exact Hok.
Qed.

(** ** The nearest upcoming pipe *)

Lemma min_from_spec l : forall best,
  In (min_from best l) (best :: l) /\
  forall q, In q (best :: l) -> (_Pipe.x (min_from best l) <= _Pipe.x q)%Q.
Proof.
  induction l as [|p l IH]; intro best; simpl.
  - split; [left; reflexivity|]. intros q [E|[]]. subst q. apply Qle_refl.
  - destruct (Qltb (_Pipe.x p) (_Pipe.x best)) eqn:E.
    + destruct (IH p) as (Hin & Hmin). apply Qltb_lt in E. split.
      * destruct Hin as [H|H]; [right; left; exact H | right; right; exact H].
      * intros q [Hq|[Hq|Hq]].
        -- subst q. apply Qle_trans with (_Pipe.x p).
           ++ apply Hmin. left; reflexivity.
           ++ apply Qlt_le_weak; exact E.
        -- apply Hmin. left; exact Hq.
        -- apply Hmin. right; exact Hq.
    + destruct (IH best) as (Hin & Hmin). apply Qltb_ge in E. split.
      * destruct Hin as [H|H]; [left; exact H | right; right; exact H].
      * intros q [Hq|[Hq|Hq]].
        -- apply Hmin. left; exact Hq.
        -- subst q. apply Qle_trans with (_Pipe.x best).
           ++ apply Hmin. left; reflexivity.
           ++ exact E.
        -- apply Hmin. right; exact Hq.
Qed.

Lemma next_pipe_none ps :
  next_pipe ps = None <->
  forall p, In p ps -> (_Pipe.trailing p < float (WIDTH / 4))%Q.
Proof.
  unfold next_pipe, min_by_x. rewrite quarter_width. split.
  - intros H p Hp. destruct (upcoming p) eqn:E.
    + assert (Hin : In p (filter upcoming ps)) by (apply filter_In; auto).
      destruct (filter upcoming ps); [destruct Hin | discriminate].
    + apply upcoming_false; exact E.
  - intro H. destruct (filter upcoming ps) as [|p l] eqn:E; [reflexivity|].
    assert (Hin : In p (filter upcoming ps)) by (rewrite E; left; reflexivity).
    apply filter_In in Hin. destruct Hin as (Hin & Hup).
    apply upcoming_true in Hup. specialize (H p Hin).
    exfalso. apply (Qlt_not_le _ _ H Hup).
Qed.

Lemma next_pipe_some ps np :
  next_pipe ps = Some np ->
  In np ps /\
  (float (WIDTH / 4) <= _Pipe.trailing np)%Q /\
  forall q, In q ps -> (float (WIDTH / 4) <= _Pipe.trailing q)%Q ->
            (_Pipe.x np <= _Pipe.x q)%Q.
Proof.
  unfold next_pipe, min_by_x. rewrite quarter_width. intro H.
  destruct (filter upcoming ps) as [|p l] eqn:E; [discriminate|].
  inversion H; subst np; clear H.
  destruct (min_from_spec l p) as (Hin & Hmin). rewrite <- E in Hin, Hmin.
  apply filter_In in Hin. destruct Hin as (Hin & Hup).
  split; [exact Hin|]. split; [apply upcoming_true; exact Hup|].
  intros q Hq Hqu. apply Hmin. apply filter_In. split; [exact Hq|].
  apply upcoming_true; exact Hqu.
Qed.

Lemma next_pipe_exists ps :
  (exists p, In p ps /\ (float (WIDTH / 4) <= _Pipe.trailing p)%Q) ->
  exists np, next_pipe ps = Some np.
Proof.
  intros (p & Hp & Hup). destruct (next_pipe ps) as [np|] eqn:E.
  - exists np; reflexivity.
  - exfalso. apply (Qlt_not_le _ _ (proj1 (next_pipe_none ps) E p Hp) Hup).
Qed.

(** ** The observation encoder *)

Lemma get_obs_none self :
  next_pipe (pipes self) = None ->
  _get_obs self =
  mkObs (0 / (float HEIGHT / 2))%Q (float WIDTH / float WIDTH)%Q
        (_Square.vel (square self) / 10)%Q
        (float (gap_h self - GAP_MIN) / float (GAP_START - GAP_MIN))%Q.
Proof. intro H. unfold _get_obs. rewrite H. reflexivity. Qed.

Lemma get_obs_some self np :
  next_pipe (pipes self) = Some np ->
  _get_obs self =
  mkObs ((_Square.y (square self) - _Pipe.gap_centre np) / (float HEIGHT / 2))%Q
        ((_Pipe.trailing np - float (WIDTH / 4)) / float WIDTH)%Q
        (_Square.vel (square self) / 10)%Q
        (float (_Pipe.gap_h np - GAP_MIN) / float (GAP_START - GAP_MIN))%Q.
Proof. intro H. unfold _get_obs. rewrite H. reflexivity. Qed.

(** C8. In every state the observation is the vector
    ((y - gap centre) / (HEIGHT/2), (trailing edge - WIDTH//4) / WIDTH,
    vel / 10, (gap height - GAP_MIN) / (GAP_START - GAP_MIN)) taken at the
    nearest upcoming pipe: a live pipe whose trailing edge is not left of
    WIDTH//4 and whose [x] is smallest among those, component 3 using that
    pipe's gap height.  When no live pipe qualifies the vector is
    (0, 1, vel / 10, (self.gap_h - GAP_MIN) / (GAP_START - GAP_MIN)). *)
Theorem get_obs_vector (self : FlappyEnv) :
  ((forall p, In p (pipes self) ->
              (_Pipe.trailing p < float (WIDTH / 4))%Q) ->
   obs_eq (_get_obs self)
     (mkObs 0 1 (_Square.vel (square self) / 10)%Q
        (float (gap_h self - GAP_MIN) / float (GAP_START - GAP_MIN))%Q)) /\
  ((exists p, In p (pipes self) /\
              (float (WIDTH / 4) <= _Pipe.trailing p)%Q) ->
   exists np,
     In np (pipes self) /\
     (float (WIDTH / 4) <= _Pipe.trailing np)%Q /\
     (forall q, In q (pipes self) ->
                (float (WIDTH / 4) <= _Pipe.trailing q)%Q ->
                (_Pipe.x np <= _Pipe.x q)%Q) /\
     obs_eq (_get_obs self)
       (mkObs
          ((_Square.y (square self) - _Pipe.gap_centre np)
           / (float HEIGHT / 2))%Q
          ((_Pipe.trailing np - float (WIDTH / 4)) / float WIDTH)%Q
          (_Square.vel (square self) / 10)%Q
          (float (_Pipe.gap_h np - GAP_MIN)
           / float (GAP_START - GAP_MIN))%Q)).
Proof.
  split.
  - intro H. apply next_pipe_none in H. rewrite (get_obs_none self H).
    unfold obs_eq; simpl. repeat split; reflexivity.
  - intro H. destruct (next_pipe_exists _ H) as (np & E).
    destruct (next_pipe_some _ _ E) as (Hin & Hup & Hmin).
    exists np. rewrite (get_obs_some self np E).
    split; [exact Hin|]. split; [exact Hup|]. split; [exact Hmin|].
    unfold obs_eq; simpl. repeat split; reflexivity.
Qed.

(** C10. In every reachable state each live pipe has [x <= WIDTH], and
    component 1 of the observation lies in [0, 1]: it is 1 when no pipe is
    upcoming and (trailing edge - WIDTH//4) / WIDTH otherwise. *)
Theorem horizontal_component_bounded (self : FlappyEnv) :
  reachable self ->
  (forall p, In p (pipes self) -> (_Pipe.x p <= float WIDTH)%Q) /\
  (0 <= o1 (_get_obs self) <= 1)%Q /\
  ((forall p, In p (pipes self) ->
              (_Pipe.trailing p < float (WIDTH / 4))%Q) ->
   (o1 (_get_obs self) == 1)%Q) /\
  ((exists p, In p (pipes self) /\
              (float (WIDTH / 4) <= _Pipe.trailing p)%Q) ->
   exists np,
     next_pipe (pipes self) = Some np /\
     (o1 (_get_obs self)
      == (_Pipe.trailing np - float (WIDTH / 4)) / float WIDTH)%Q).
Proof.
  intro Hr. apply reachable_ok in Hr. destruct Hr as (_ & _ & Hps & _).
  rewrite Forall_forall in Hps.
  assert (Hx : forall p, In p (pipes self) -> (_Pipe.x p <= float WIDTH)%Q).
  { intros p Hp. apply (Hps p Hp). }
  split; [exact Hx|]. split; [|split].
  - destruct (next_pipe (pipes self)) as [np|] eqn:E.
    + rewrite (get_obs_some self np E); simpl.
      destruct (next_pipe_some _ _ E) as (Hin & Hup & _).
      destruct (Hps np Hin) as (Hw & Hxn & _).
      unfold _Pipe.trailing in *. rewrite Hw in *.
      change (float 60) with (60 # 1)%Q in *.
      rewrite quarter_width, float_width in *.
      revert Hup Hxn. generalize (_Pipe.x np). intros q Hup Hxn.
      split.
      * apply Qle_shift_div_l; [reflexivity | lra].
      * apply Qle_shift_div_r; [reflexivity | lra].
    + rewrite (get_obs_none self E); simpl. split; discriminate.
  - intro H. apply next_pipe_none in H. rewrite (get_obs_none self H).
    reflexivity.
  - intro H. destruct (next_pipe_exists _ H) as (np & E).
    exists np. split; [exact E|]. rewrite (get_obs_some self np E).
    reflexivity.
Qed.

(** ** Progress of an episode *)

(** C5. From a reachable state, every step that returns has increased [tick]
    by exactly 1, has not decreased [score] or [pipe_speed], has not increased
    [gap_h], and leaves [gap_h] at or above [GAP_MIN]. *)
Theorem step_monotone (a : Z) (self : FlappyEnv) (g : RandomState)
  (r : StepResult) (self' : FlappyEnv) (g' : RandomState) :
  reachable self ->
  step a self g = Some (r, self', g') ->
  tick self' = tick self + 1 /\
  score self <= score self' /\
  (pipe_speed self <= pipe_speed self')%Q /\
  gap_h self' <= gap_h self /\
  GAP_MIN <= gap_h self'.
Proof.
  intros Hr Hs. apply reachable_ok in Hr.
  destruct (step_ok a self g Hr) as (r0 & s0 & g0 & E & Hok & Ht & Hh & _).
  rewrite E in Hs. inversion Hs; subst r0 s0 g0; clear Hs.
  destruct Hh as (H1 & H2 & H3). destruct Hok as (_ & Hc & _ & _).
  pose proof (tally_ok_gap _ Hc) as Hg. simpl in *.
  repeat split; try assumption; lia.
Qed.

(** C9. In every reachable state [gap_h] lies in [[GAP_MIN, GAP_START]], so
    the bounds of the draw are in order ([60 <= HEIGHT - 60 - gap_h]); the
    spawn phase never raises, and neither does the step. *)
Theorem spawn_infallible (self : FlappyEnv) :
  reachable self ->
  GAP_MIN <= gap_h self <= GAP_START /\
  60 <= HEIGHT - 60 - gap_h self /\
  (forall g, exists gy g',
      randint 60 (HEIGHT - 60 - gap_h self) g = Some (gy, g')) /\
  (forall g, exists self1 g1, spawn self g = Some (self1, g1)) /\
  (forall a g, exists r self' g', step a self g = Some (r, self', g')).
Proof.
  intro Hr. apply reachable_ok in Hr.
  pose proof Hr as (_ & Hc & _ & _).
  pose proof (tally_ok_gap _ Hc) as Hg. simpl in Hg.
  assert (Hb : 60 <= HEIGHT - 60 - gap_h self)
    by (unfold HEIGHT, GAP_START in *; lia).
  split; [exact Hg|]. split; [exact Hb|]. split; [|split].
  - intro g. destruct (randint_range 60 _ g Hb) as (v & E & _).
    do 2 eexists; exact E.
  - intro g. destruct (spawn_ok self g Hr) as (s1 & g1 & E & _).
    do 2 eexists; exact E.
  - intros a g. destruct (step_ok a self g Hr) as (r & s' & g' & E & _).
    do 3 eexists; exact E.
Qed.

(** ** Spawning *)


(** ** Scoring *)

Lemma visit_unfold p c :
  visit p c =
  let moved := _Pipe.update p (t_speed c) in
  if crossing moved
  then (if _Pipe.off_screen (_Pipe.set_passed moved)
        then None else Some (_Pipe.set_passed moved), on_score c)
  else (if _Pipe.off_screen moved then None else Some moved, c).
Proof.
  unfold visit. cbv zeta. destruct (crossing _); reflexivity.
Qed.

(** ** Episodes *)

Lemma steps_reachable actions : forall self g rs self' g',
  reachable self ->
  steps actions self g = Some (rs, self', g') ->
  reachable self'.
Proof.
  induction actions as [|a rest IH]; intros self g rs self' g' Hr Hs;
    simpl in Hs.
  - inversion Hs; subst. exact Hr.
  - destruct (step a self g) as [[[r s1] g1]|] eqn:E; [|discriminate].
    destruct (steps rest s1 g1) as [[[rs1 s2] g2]|] eqn:E2; [|discriminate].
    inversion Hs; subst.
    apply (IH s1 g1 rs1 self' g'); [|exact E2].
    apply (reach_step a self g r s1 g1 Hr E).
Qed.

(** The state after [reset] and the given actions. *)
Lemma run_reachable seed actions self g ob rs self' g' :
  run seed actions self g = Some (ob, rs, self', g') -> reachable self'.
Proof.
  unfold run. destruct (reset seed self) as [ob0 s0] eqn:E0.
  destruct (steps actions s0 g) as [[[rs1 s1] g1]|] eqn:E; [|discriminate].
  intro H; inversion H; subst.
  apply (steps_reachable actions s0 g rs self' g'); [|exact E].
  replace s0 with (snd (reset seed self)) by (rewrite E0; reflexivity).
  apply reach_reset.
Qed.

(** What a step returns in terms of the state it leaves. *)
Lemma step_returns a self g r self' g' :
  step a self g = Some (r, self', g') ->
  tick self' = tick self + 1 /\
  square self' =
    _Square.update
      (if a =? 1 then _Square.flap (square self) else square self) /\
  obs r = _get_obs self' /\
  terminated r = collided (square self') (pipes self') /\
  info_score r = score self' /\
  (terminated r = true ->
   reward r = shaped (square self') (pipes self') (- (1 # 1))%Q).
Proof.
  unfold step. intro H.
  destruct (spawn self g) as [[s1 g1]|] eqn:Hsp; [|discriminate].
  assert (Ht : tick s1 = tick self).
  { unfold spawn in Hsp. destruct (tick self mod PIPE_INTERVAL_TICKS =? 0).
    - destruct (randint _ _ g) as [[gy g2]|]; [|discriminate].
      inversion Hsp; reflexivity.
    - inversion Hsp; subst; reflexivity. }
  destruct (update_pipes _ _) as [ps c].
  inversion H; subst r self' g'; clear H. cbn.
  split; [lia|]. do 4 (split; [reflexivity|]).
  intro Hc. rewrite Hc. reflexivity.
Qed.

(** *** Geometry *)

(** [int] of a float that holds an integer. *)
Lemma int_float (q : Q) (z : Z) : (q == float z)%Q -> int q = z.
Proof.
  unfold Qeq, int; simpl. intro H. rewrite Z.mul_1_r in H. rewrite H.
  apply Z.quot_mul. discriminate.
Qed.

(** Rectangles side by side do not collide. *)
Lemma colliderect_apart (A B : Rect.t) :
  0 <= Rect.w A -> 0 <= Rect.w B -> Rect.x A + Rect.w A <= Rect.x B ->
  Rect.colliderect A B = false.
Proof.
  intros HA HB H. unfold Rect.colliderect.
  destruct (_ || _); [reflexivity|].
  assert (E : (Z.min (Rect.x B) (Rect.x B + Rect.w B)
               <? Z.max (Rect.x A) (Rect.x A + Rect.w A)) = false)
    by (apply Z.ltb_ge; lia).
  rewrite E. rewrite andb_false_r. reflexivity.
Qed.

Lemma float_ge_120 (z : Z) (q : Q) :
  120 <= z -> (q == float z)%Q -> (120 # 1 <= q)%Q.
Proof.
  intros Hz Hq. apply Qle_trans with (float z).
  - change (120 # 1)%Q with (float 120). rewrite <- Zle_Qle. exact Hz.
  - apply Qle_lteq. right. apply Qeq_sym. exact Hq.
Qed.

(** *** Free fall: the square after [k] updates without a flap *)

Lemma falling_init : falling 0 _Square.init.
Proof. split; reflexivity. Qed.

Lemma falling_update k sq :
  falling k sq -> falling (S k) (_Square.update (act NONE sq)).
Proof.
  intros (Hv & Hy). change (act NONE sq) with sq.
  unfold falling, _Square.update; cbn [_Square.vel _Square.y].
  rewrite Nat2Z.inj_succ. unfold Z.succ. rewrite inject_Z_plus.
  change (float 1) with 1%Q. revert Hv Hy.
  generalize (float (Z.of_nat k)) (_Square.vel sq) (_Square.y sq).
  intros K v y Hv Hy. split.
  - rewrite Hv. ring.
  - rewrite Hv, Hy. unfold GRAVITY. field.
Qed.

Lemma falling_fly m : forall k sq,
  falling k sq -> falling (k + m) (fly (repeat NONE m) sq).
Proof.
  induction m as [|m IH]; intros k sq H.
  - rewrite Nat.add_0_r. exact H.
  - cbn [repeat fly fold_left]. replace (k + S m)%nat with (S k + m)%nat by lia.
    apply IH. apply falling_update. exact H.
Qed.

Lemma falling_bounds k sq :
  falling k sq -> (k <= 39)%nat ->
  (0 <= _Square.y sq)%Q /\ (_Square.y sq + float SQUARE_SIZE <= float HEIGHT)%Q.
Proof.
  intros (_ & Hy) Hk.
  assert (H0 : (0 <= float (Z.of_nat k))%Q)
    by (change 0%Q with (float 0); rewrite <- Zle_Qle; lia).
  assert (H1 : (float (Z.of_nat k) <= 39 # 1)%Q)
    by (change (39 # 1)%Q with (float 39); rewrite <- Zle_Qle; lia).
  change (float SQUARE_SIZE) with (38 # 1)%Q.
  change (float HEIGHT) with (640 # 1)%Q.
  assert (Hg : (GRAVITY / 2 == 7 # 40)%Q) by reflexivity.
  revert Hg Hy H0 H1.
  generalize (float (Z.of_nat k)) (_Square.y sq) (GRAVITY / 2)%Q.
  intros K y G Hg Hy H0 H1.
  rewrite Hy, Hg. split; nra.
Qed.

(** *** The first ninety ticks

    Until tick 90 the pipe of tick 0 is the only one, and it has not reached
    the square: an episode is then determined by the actions and by one gap
    offset. *)

Section EarlyEpisode.

Variable np : option Z.
Variable gy : Z.

Lemma first_pipe_x n :
  (_Pipe.x (first_pipe gy n) == float (480 - 3 * Z.of_nat n))%Q.
Proof.
  unfold first_pipe; cbn [_Pipe.x]. induction n as [|n IH].
  - reflexivity.
  - cbn [Nat.iter].
    apply Qeq_trans with (float (480 - 3 * Z.of_nat n) - PIPE_SPEED_START)%Q.
    + apply Qplus_comp; [exact IH | reflexivity].
    + change PIPE_SPEED_START with (float 3). unfold Qminus.
      rewrite <- inject_Z_opp, <- inject_Z_plus.
      apply inject_Z_injective. lia.
Qed.

Lemma first_pipe_trailing n :
  (_Pipe.trailing (first_pipe gy n) == float (540 - 3 * Z.of_nat n))%Q.
Proof.
  unfold _Pipe.trailing.
  apply Qeq_trans with (float (480 - 3 * Z.of_nat n) + float 60)%Q.
  - apply Qplus_comp; [apply first_pipe_x | reflexivity].
  - rewrite <- inject_Z_plus. apply inject_Z_injective. lia.
Qed.

Lemma first_pipe_visit n c :
  (n < 140)%nat -> t_speed c = PIPE_SPEED_START ->
  visit (first_pipe gy n) c = (Some (first_pipe gy (S n)), c).
Proof.
  intros Hn Hv. rewrite visit_unfold, Hv. cbv zeta.
  change (_Pipe.update (first_pipe gy n) PIPE_SPEED_START)
    with (first_pipe gy (S n)).
  assert (Hge : (120 # 1 <= _Pipe.trailing (first_pipe gy (S n)))%Q).
  { apply (float_ge_120 (540 - 3 * Z.of_nat (S n)));
      [lia | apply first_pipe_trailing]. }
  assert (E1 : crossing (first_pipe gy (S n)) = false).
  { destruct (crossing _) eqn:C; [|reflexivity].
    apply crossing_true in C. destruct C as (_ & C).
    exfalso. apply (Qlt_not_le _ _ C Hge). }
  assert (E2 : _Pipe.off_screen (first_pipe gy (S n)) = false).
  { destruct (_Pipe.off_screen _) eqn:C; [|reflexivity].
    apply off_screen_true in C. exfalso. apply (Qlt_not_le _ _ C).
    apply Qle_trans with (120 # 1)%Q; [discriminate | exact Hge]. }
  rewrite E1, E2. reflexivity.
Qed.

Lemma first_pipe_next n :
  (n <= 140)%nat -> next_pipe [first_pipe gy n] = Some (first_pipe gy n).
Proof.
  intro Hn. unfold next_pipe. cbn [filter].
  assert (E : upcoming (first_pipe gy n) = true).
  { apply upcoming_true.
    apply (float_ge_120 (540 - 3 * Z.of_nat n));
      [lia | apply first_pipe_trailing]. }
  rewrite E. reflexivity.
Qed.

Lemma first_pipe_hits sq n :
  (n <= 107)%nat -> hits sq (first_pipe gy n) = false.
Proof.
  intro Hn. unfold hits, _Pipe.rects, _Square.rect.
  rewrite (int_float _ _ (first_pipe_x n)).
  cbn [first_pipe _Pipe.w _Pipe.gap_y _Pipe.gap_h].
  rewrite !colliderect_apart; try reflexivity;
    cbn [Rect.x Rect.w]; unfold WIDTH, SQUARE_SIZE;
    change (480 / 4) with 120; lia.
Qed.

Lemma early_step a sq n g :
  (1 <= n < 89)%nat ->
  let s' := early_state np (_Square.update (act a sq)) gy (S n) in
  step a (early_state np sq gy n) g = Some (result_in s', s', g).
Proof.
  intro Hn. cbv zeta. unfold step, early_state, spawn.
  cbn [tick gap_h pipes score pipe_speed square np_random_seed].
  assert (E : (Z.of_nat n mod PIPE_INTERVAL_TICKS =? 0) = false).
  { apply Z.eqb_neq. unfold PIPE_INTERVAL_TICKS.
    rewrite Z.mod_small by lia. lia. }
  rewrite E. cbn [pipes score pipe_speed gap_h update_pipes tick square
    np_random_seed].
  rewrite first_pipe_visit by (try reflexivity; lia).
  replace (Z.of_nat n + 1) with (Z.of_nat (S n)) by lia.
  reflexivity.
Qed.

Lemma early_steps actions : forall sq n g,
  (1 <= n)%nat -> (n + length actions < 90)%nat ->
  steps actions (early_state np sq gy n) g =
  Some (early_results actions np sq gy n,
        early_state np (fly actions sq) gy (n + length actions), g).
Proof.
  induction actions as [|a rest IH]; intros sq n g H1 H2;
    cbn [steps early_results fly fold_left length].
  - rewrite Nat.add_0_r. reflexivity.
  - cbn [length] in H2. rewrite early_step by lia. cbv zeta.
    rewrite IH by lia. replace (S n + length rest)%nat
      with (n + S (length rest))%nat by lia.
    reflexivity.
Qed.

Lemma early_results_snoc actions a : forall sq n,
  early_results (actions ++ [a]) np sq gy n =
  early_results actions np sq gy n ++
  [result_in (early_state np (fly (actions ++ [a]) sq) gy
                          (S (n + length actions)))].
Proof.
  induction actions as [|b rest IH]; intros sq n.
  - cbn. rewrite Nat.add_0_r. reflexivity.
  - cbn [app early_results length fly fold_left]. rewrite IH.
    replace (S n + length rest)%nat with (n + S (length rest))%nat by lia.
    reflexivity.
Qed.

Lemma early_results_length actions : forall sq n,
  length (early_results actions np sq gy n) = length actions.
Proof.
  induction actions as [|a rest IH]; intros; cbn [early_results length].
  - reflexivity.
  - rewrite IH. reflexivity.
Qed.

Lemma falling_safe k sq :
  falling k sq -> (k <= 39)%nat -> collided sq [first_pipe gy k] = false.
Proof.
  intros H Hk. destruct (falling_bounds k sq H Hk) as (H0 & H1).
  unfold collided. cbn [existsb].
  rewrite (proj2 (Qltb_ge _ _) H0), (proj2 (Qltb_ge _ _) H1).
  rewrite first_pipe_hits by lia. reflexivity.
Qed.

Lemma falling_results m : forall k sq,
  falling k sq -> (k + m <= 39)%nat ->
  Forall (fun r => terminated r = false)
         (early_results (repeat NONE m) np sq gy k).
Proof.
  induction m as [|m IH]; intros k sq H Hk; cbn [repeat early_results].
  - constructor.
  - apply falling_update in H. constructor.
    + change (collided (_Square.update (act NONE sq)) [first_pipe gy (S k)]
              = false).
      apply falling_safe; [exact H | lia].
    + apply IH; [exact H | lia].
Qed.

End EarlyEpisode.

Lemma first_step a seed self g :
  let s1 :=
    early_state (seed_np_random seed self)
                (_Square.update (act a _Square.init)) (first_gap_y g) 1 in
  step a (snd (reset seed self)) g = Some (result_in s1, s1, advance g).
Proof.
  cbv zeta. unfold step, reset, spawn. cbn [snd tick gap_h pipes score
    pipe_speed square np_random_seed].
  change (0 mod PIPE_INTERVAL_TICKS =? 0) with true. cbv iota.
  unfold randint. change (HEIGHT - 60 - GAP_START <? 60) with false.
  cbv iota. cbn [pipes app score pipe_speed gap_h update_pipes].
  change (_Pipe.init (float WIDTH) ?gy GAP_START) with (first_pipe gy 0).
  rewrite first_pipe_visit by (try reflexivity; lia).
  reflexivity.
Qed.

(** An episode of fewer than 90 steps from [reset]: every result and the
    final state, whatever the generator holds. *)
Lemma early_run seed a actions self g :
  (length actions < 89)%nat ->
  let np := seed_np_random seed self in
  let sq1 := _Square.update (act a _Square.init) in
  let gy := first_gap_y g in
  run seed (a :: actions) self g =
  Some (fst (reset seed self),
        result_in (early_state np sq1 gy 1) :: early_results actions np sq1 gy 1,
        early_state np (fly actions sq1) gy (S (length actions)),
        advance g).
Proof.
  intro H. cbv zeta. unfold run.
  change (reset seed self) with (fst (reset seed self), snd (reset seed self)).
  cbn [steps]. rewrite first_step. cbv zeta.
  rewrite early_steps by lia. reflexivity.
Qed.

(** [reset], then forty [step(0)]: the first thirty-nine return
    [done = False]; the fortieth finds the square below the screen, returns
    [done = True] and the collision reward plus the shaping term of the pipe
    of tick 0.  For every seed, every object and every generator state. *)
Lemma free_fall_collision seed self g :
  exists rs r self',
    run seed (repeat NONE 40) self g =
      Some (fst (reset seed self), rs ++ [r], self', advance g) /\
    length rs = 39%nat /\
    Forall (fun r' => terminated r' = false) rs /\
    terminated r = true /\
    collided (square self') (pipes self') = true /\
    (reward r
     == - (1 # 1)
        + (1 # 10)
          * (1 - Qabs ((607 # 1) - (float (first_gap_y g) + (85 # 1)))
                 / (320 # 1)))%Q.
Proof.
  change (repeat NONE 40) with (NONE :: (repeat NONE 38 ++ [NONE])).
  rewrite early_run by (cbn; lia). cbv zeta.
  rewrite early_results_snoc.
  set (np := seed_np_random seed self).
  set (gy := first_gap_y g).
  set (sq1 := _Square.update (act NONE _Square.init)).
  change (repeat NONE 38 ++ [NONE]) with (repeat NONE 39).
  set (sq40 := fly (repeat NONE 39) sq1).
  assert (F1 : falling 1 sq1) by (apply falling_update, falling_init).
  assert (F40 : falling 40 sq40) by (apply (falling_fly 39 1 sq1 F1)).
  assert (Y40 : (_Square.y sq40 == 607 # 1)%Q).
  { destruct F40 as (_ & Hy). rewrite Hy. reflexivity. }
  assert (C40 : collided sq40 [first_pipe gy 40] = true).
  { unfold collided.
    assert (E : Qltb (float HEIGHT) (_Square.y sq40 + float SQUARE_SIZE) = true).
    { apply Qltb_lt. rewrite Y40. reflexivity. }
    rewrite E. rewrite orb_true_r. reflexivity. }
  exists (result_in (early_state np sq1 gy 1)
          :: early_results (repeat NONE 38) np sq1 gy 1),
         (result_in (early_state np sq40 gy 40)),
         (early_state np sq40 gy 40).
  split; [reflexivity|]. split.
  { cbn [length]. rewrite early_results_length. reflexivity. }
  split.
  { constructor.
    - change (collided sq1 [first_pipe gy 1] = false).
      apply falling_safe; [exact F1 | lia].
    - apply falling_results; [exact F1 | lia]. }
  split; [exact C40|]. split; [exact C40|].
  unfold result_in. cbn [square pipes early_state reward]. rewrite C40.
  unfold shaped. rewrite first_pipe_next by lia.
  unfold proximity_reward, _Pipe.gap_centre.
  cbn [first_pipe _Pipe.gap_y _Pipe.gap_h].
  rewrite Y40.
  assert (Hc : (float gy + float GAP_START / 2 == float gy + (85 # 1))%Q).
  { apply Qplus_comp; reflexivity. }
  assert (Hh : (float HEIGHT / 2 == 320 # 1)%Q) by reflexivity.
  rewrite Hc, Hh. reflexivity.
Qed.

(** C2. [reset], then [step(0)] forty times (gap offset 60): thirty-nine
    steps return [done = False]; on the fortieth the square is below the
    screen, a collision is detected and [done = True] is returned, and the
    reward is -1.044375: the -1.0 of the collision plus the shaping term of
    the pipe ahead, not -1.0. *)
Theorem collision_reward_is_shaped :
  exists ob rs r self' g',
    free_fall 40 = Some (ob, rs ++ [r], self', g') /\
    length rs = 39%nat /\
    Forall (fun r' => terminated r' = false) rs /\
    collided (square self') (pipes self') = true /\
    terminated r = true /\
    (reward r == - (1044375 # 1000000))%Q /\
    ~ (reward r == - (1 # 1))%Q.
Proof.
  destruct (free_fall_collision (Some 42) constructed (constant_random 0))
    as (rs & r & self' & Hrun & Hlen & Hrs & Hdone & Hcol & Hrew).
  exists (fst (reset (Some 42) constructed)), rs, r, self',
         (advance (constant_random 0)).
  split; [exact Hrun|]. split; [exact Hlen|]. split; [exact Hrs|].
  split; [exact Hcol|]. split; [exact Hdone|].
  change (first_gap_y (constant_random 0)) with 60 in Hrew.
  split.
  - rewrite Hrew. reflexivity.
  - rewrite Hrew. discriminate.
Qed.

(** ** Stepping after termination *)

(** C3, as stated, fails: the fortieth [step(0)] after [reset] returns
    [done = True], and the next [step(0)] is not rejected: it returns, and it
    leaves another state. *)
Lemma terminated_step_not_rejected :
  exists ob rs r self g,
    free_fall 40 = Some (ob, rs ++ [r], self, g) /\
    terminated r = true /\
    ~ rejected r NONE self g.
Proof.
  destruct (free_fall_collision (Some 42) constructed (constant_random 0))
    as (rs & r & self' & Hrun & _ & _ & Hdone & _).
  exists (fst (reset (Some 42) constructed)), rs, r, self',
         (advance (constant_random 0)).
  split; [exact Hrun|]. split; [exact Hdone|].
  pose proof (run_reachable _ _ _ _ _ _ _ _ Hrun) as Hr.
  apply reachable_ok in Hr.
  destruct (step_ok NONE self' (advance (constant_random 0)) Hr)
    as (r2 & s2 & g2 & E & _ & Ht & _).
  intros [H | (r' & H & _)]; rewrite E in H; [discriminate|].
  inversion H; subst. lia.
Qed.

(** C3, amended. The object keeps no terminal flag: a [step] that follows a
    step which returned [done = True] runs like any other.  It returns, it
    integrates the square once more under the action, it increases [tick] by
    1 and it encodes the new state as the observation. *)
Theorem step_after_termination (a0 a : Z) (self0 : FlappyEnv)
  (g0 : RandomState) (r1 : StepResult) (self1 : FlappyEnv) (g1 : RandomState) :
  reachable self0 ->
  step a0 self0 g0 = Some (r1, self1, g1) ->
  terminated r1 = true ->
  exists r2 self2 g2,
    step a self1 g1 = Some (r2, self2, g2) /\
    tick self2 = tick self1 + 1 /\
    square self2 = _Square.update (act a (square self1)) /\
    obs r2 = _get_obs self2.
Proof.
  intros Hr Hs _.
  pose proof (reach_step _ _ _ _ _ _ Hr Hs) as Hr1.
  apply reachable_ok in Hr1.
  destruct (step_ok a self1 g1 Hr1) as (r2 & s2 & g2 & E & _).
  exists r2, s2, g2. split; [exact E|].
  destruct (step_returns _ _ _ _ _ _ E) as (Ht & Hsq & Hobs & _).
  split; [exact Ht|]. split; [exact Hsq | exact Hobs].
Qed.

Lemma climb_reachable n ob rs self g :
  climb n = Some (ob, rs, self, g) -> reachable self.
Proof. unfold climb. apply run_reachable. Qed.

Lemma step_after_termination_witness :
  exists ob rs self0 g0 r1 self1 g1,
    climb 44 = Some (ob, rs, self0, g0) /\
    step FLAP self0 g0 = Some (r1, self1, g1) /\
    terminated r1 = true /\
    exists r2 self2 g2,
      step NONE self1 g1 = Some (r2, self2, g2) /\
      tick self2 = tick self1 + 1 /\
      square self2 = _Square.update (act NONE (square self1)) /\
      obs r2 = _get_obs self2.
Proof.
  do 7 eexists.
  match goal with
  | |- ?A /\ ?B /\ ?C /\ _ =>
      assert (H1 : A) by (vm_compute; reflexivity);
      assert (H2 : B) by (vm_compute; reflexivity);
      assert (H3 : C) by reflexivity
  end.
  exact (conj H1 (conj H2 (conj H3
           (step_after_termination FLAP NONE _ _ _ _ _
              (climb_reachable 44 _ _ _ _ H1) H2 H3)))).
Defined.

(** ** One flap after [reset] *)

(** C4, as stated, fails: after [reset(seed=42)] and one [step(1)] the
    velocity is not the flap impulse. *)
Lemma flap_velocity_is_not_impulse :
  exists r self' g',
    step FLAP (snd (reset (Some 42) constructed)) (constant_random 0)
    = Some (r, self', g') /\
    ~ (_Square.vel (square self') == FLAP_STRENGTH)%Q.
Proof.
  do 3 eexists. split; [vm_compute; reflexivity|]. vm_compute. discriminate.
Qed.

Lemma flap_once_bounds :
  let sq := _Square.update (act FLAP _Square.init) in
  Qltb (_Square.y sq) 0 = false /\
  Qltb (float HEIGHT) (_Square.y sq + float SQUARE_SIZE) = false.
Proof. split; reflexivity. Qed.

(** C4, amended. After [reset(seed=42)] and one [step(1)], whatever the object
    was before and whatever the generator holds: the velocity is the flap
    impulse plus gravity (-7.5 + 0.35), the pipe of tick 0 is the next pipe,
    the reward is -0.01 plus its shaping term, and [done] is [False]. *)
Theorem flap_once (self : FlappyEnv) (g : RandomState) :
  exists r self' np,
    step FLAP (snd (reset (Some 42) self)) g = Some (r, self', advance g) /\
    _Square.vel (square self') = (FLAP_STRENGTH + GRAVITY)%Q /\
    next_pipe (pipes self') = Some np /\
    reward r = (- (1 # 100) + proximity_reward (square self') np)%Q /\
    terminated r = false.
Proof.
  rewrite first_step. cbv zeta.
  set (sq := _Square.update (act FLAP _Square.init)).
  set (gy := first_gap_y g).
  set (np := seed_np_random (Some 42) self).
  assert (Hc : collided sq [first_pipe gy 1] = false).
  { unfold collided. destruct flap_once_bounds as (E1 & E2).
    fold sq in E1, E2. rewrite E1, E2.
    cbn [existsb]. rewrite first_pipe_hits by lia. reflexivity. }
  exists (result_in (early_state np sq gy 1)), (early_state np sq gy 1),
         (first_pipe gy 1).
  split; [reflexivity|]. split; [reflexivity|].
  split; [apply first_pipe_next; lia|].
  unfold result_in. cbn [reward terminated square pipes early_state].
  rewrite Hc. unfold shaped. rewrite first_pipe_next by lia.
  split; reflexivity.
Qed.

(** ** The seed *)

Lemma step_with_np_random np a self g :
  step a (with_np_random np self) g =
  match step a self g with
  | Some (r, self', g') => Some (r, with_np_random np self', g')
  | None => None
  end.
Proof.
  unfold step, spawn, with_np_random.
  cbn [tick gap_h pipes score pipe_speed square np_random_seed].
  destruct (tick self mod PIPE_INTERVAL_TICKS =? 0).
  - destruct (randint 60 (HEIGHT - 60 - gap_h self) g) as [[gy g1]|];
      [|reflexivity].
    cbn [tick gap_h pipes score pipe_speed square np_random_seed].
    destruct (update_pipes _ _) as [ps c]. reflexivity.
  - destruct (update_pipes _ _) as [ps c]. reflexivity.
Qed.

Lemma steps_with_np_random np actions : forall self g,
  steps actions (with_np_random np self) g =
  match steps actions self g with
  | Some (rs, self', g') => Some (rs, with_np_random np self', g')
  | None => None
  end.
Proof.
  induction actions as [|a rest IH]; intros self g; cbn [steps].
  - reflexivity.
  - rewrite step_with_np_random.
    destruct (step a self g) as [[[r s1] g1]|]; [|reflexivity].
    rewrite IH. destruct (steps rest s1 g1) as [[[rs s2] g2]|]; reflexivity.
Qed.

(** C1. The seed given to [reset] goes to [self.np_random], which [step]
    never reads: runs that differ only in the seed return the same
    observations and rewards; and the gap offset comes from the [random]
    module, so two runs with seed 42 and the one action 0 that find that
    module in different states return different observations and rewards. *)
Theorem seed_does_not_fix_the_run :
  (forall seed1 seed2 actions self g,
     outputs (run seed1 actions self g) = outputs (run seed2 actions self g)) /\
  (exists ob1 r1 s1 g1 ob2 r2 s2 g2,
     run (Some 42) [NONE] constructed (constant_random 0)
     = Some (ob1, [r1], s1, g1) /\
     run (Some 42) [NONE] constructed (constant_random 1)
     = Some (ob2, [r2], s2, g2) /\
     ~ (o0 (obs r1) == o0 (obs r2))%Q /\
     ~ (reward r1 == reward r2)%Q).
Proof.
  split.
  - intros seed1 seed2 actions self g. unfold run, reset.
    set (s1 := mkEnv (seed_np_random seed1 self) _ _ _ _ _ _).
    change (mkEnv (seed_np_random seed2 self) _Square.init [] 0
                  PIPE_SPEED_START GAP_START 0)
      with (with_np_random (seed_np_random seed2 self) s1).
    rewrite steps_with_np_random.
    destruct (steps actions s1 g) as [[[rs s2] g2]|]; reflexivity.
  - do 8 eexists. split; [vm_compute; reflexivity|].
    split; [vm_compute; reflexivity|].
    split; vm_compute; discriminate.
Qed.

(** ** The theorems at a concrete state

    The state three ticks into the run [climb]: one pipe, at [x = 471]. *)

Lemma step_monotone_witness :
  exists ob rs self g r self' g',
    climb 3 = Some (ob, rs, self, g) /\
    step NONE self g = Some (r, self', g') /\
    tick self' = tick self + 1 /\
    score self <= score self' /\
    (pipe_speed self <= pipe_speed self')%Q /\
    gap_h self' <= gap_h self /\
    GAP_MIN <= gap_h self'.
Proof.
  do 7 eexists.
  match goal with
  | |- ?A /\ ?B /\ _ =>
      assert (H1 : A) by (vm_compute; reflexivity);
      assert (H2 : B) by (vm_compute; reflexivity)
  end.
  exact (conj H1 (conj H2
           (step_monotone NONE _ _ _ _ _ (climb_reachable 3 _ _ _ _ H1) H2))).
Defined.

Lemma spawn_infallible_witness :
  exists ob rs self g,
    climb 3 = Some (ob, rs, self, g) /\
    GAP_MIN <= gap_h self <= GAP_START /\
    60 <= HEIGHT - 60 - gap_h self /\
    (forall g, exists gy g',
        randint 60 (HEIGHT - 60 - gap_h self) g = Some (gy, g')) /\
    (forall g, exists self1 g1, spawn self g = Some (self1, g1)) /\
    (forall a g, exists r self' g', step a self g = Some (r, self', g')).
Proof.
  do 4 eexists.
  match goal with
  | |- ?A /\ _ => assert (H1 : A) by (vm_compute; reflexivity)
  end.
  exact (conj H1 (spawn_infallible _ (climb_reachable 3 _ _ _ _ H1))).
Defined.

Lemma horizontal_component_bounded_witness :
  exists ob rs self g,
    climb 3 = Some (ob, rs, self, g) /\
    (forall p, In p (pipes self) -> (_Pipe.x p <= float WIDTH)%Q) /\
    (0 <= o1 (_get_obs self) <= 1)%Q /\
    ((forall p, In p (pipes self) ->
                (_Pipe.trailing p < float (WIDTH / 4))%Q) ->
     (o1 (_get_obs self) == 1)%Q) /\
    ((exists p, In p (pipes self) /\
                (float (WIDTH / 4) <= _Pipe.trailing p)%Q) ->
     exists np,
       next_pipe (pipes self) = Some np /\
       (o1 (_get_obs self)
        == (_Pipe.trailing np - float (WIDTH / 4)) / float WIDTH)%Q).
Proof.
  do 4 eexists.
  match goal with
  | |- ?A /\ _ => assert (H1 : A) by (vm_compute; reflexivity)
  end.
  exact (conj H1
           (horizontal_component_bounded _ (climb_reachable 3 _ _ _ _ H1))).
Defined.


Lemma get_obs_vector_witness :
  exists ob rs self g,
    climb 3 = Some (ob, rs, self, g) /\
    (exists p, In p (pipes self) /\
               (float (WIDTH / 4) <= _Pipe.trailing p)%Q) /\
    exists np,
      In np (pipes self) /\
      (float (WIDTH / 4) <= _Pipe.trailing np)%Q /\
      (forall q, In q (pipes self) ->
                 (float (WIDTH / 4) <= _Pipe.trailing q)%Q ->
                 (_Pipe.x np <= _Pipe.x q)%Q) /\
      obs_eq (_get_obs self)
        (mkObs
           ((_Square.y (square self) - _Pipe.gap_centre np)
            / (float HEIGHT / 2))%Q
           ((_Pipe.trailing np - float (WIDTH / 4)) / float WIDTH)%Q
           (_Square.vel (square self) / 10)%Q
           (float (_Pipe.gap_h np - GAP_MIN)
            / float (GAP_START - GAP_MIN))%Q).
Proof.
  do 4 eexists.
  match goal with
  | |- ?A /\ ?B /\ _ =>
      assert (H1 : A) by (vm_compute; reflexivity);
      assert (H2 : B)
        by (eexists; split; [left; reflexivity | vm_compute; discriminate])
  end.
  exact (conj H1 (conj H2 (proj2 (get_obs_vector _) H2))).
Defined.

(** * Further properties *)

(** ** The phases of a step *)

Lemma spawn_cases self g self1 g1 :
  spawn self g = Some (self1, g1) ->
  np_random_seed self1 = np_random_seed self /\
  square self1 = square self /\
  tick self1 = tick self /\
  pipe_speed self1 = pipe_speed self /\
  gap_h self1 = gap_h self /\
  score self1 = score self /\
  ((tick self mod PIPE_INTERVAL_TICKS <> 0 /\
    pipes self1 = pipes self /\ g1 = g) \/
   (tick self mod PIPE_INTERVAL_TICKS = 0 /\
    g1 = advance g /\
    exists gy,
      60 <= gy <= HEIGHT - 60 - gap_h self /\
      pipes self1 =
        pipes self ++ [_Pipe.init (float WIDTH) gy (gap_h self)])).
Proof.
  unfold spawn. destruct (tick self mod PIPE_INTERVAL_TICKS =? 0) eqn:E.
  - apply Z.eqb_eq in E. unfold randint.
    destruct (HEIGHT - 60 - gap_h self <? 60) eqn:B; [discriminate|].
    apply Z.ltb_ge in B. intro H; inversion H; subst self1 g1; clear H.
    cbn [np_random_seed square tick pipe_speed gap_h score pipes].
    do 6 (split; [reflexivity|]). right. split; [exact E|].
    split; [reflexivity|].
    exists (60 + raw g (drawn g) mod (HEIGHT - 60 - gap_h self - 60 + 1)).
    split; [|reflexivity].
    pose proof (Z.mod_pos_bound (raw g (drawn g))
                  (HEIGHT - 60 - gap_h self - 60 + 1)). lia.
  - apply Z.eqb_neq in E. intro H; inversion H; subst self1 g1; clear H.
    do 6 (split; [reflexivity|]). left. auto.
Qed.

Lemma step_cases a self g r self' g' :
  step a self g = Some (r, self', g') ->
  exists self1 c',
    spawn self g = Some (self1, g') /\
    update_pipes (pipes self1)
      (mkTally (score self1) (- (1 # 100)) (pipe_speed self1) (gap_h self1))
    = (pipes self', c') /\
    score self' = t_score c' /\
    pipe_speed self' = t_speed c' /\
    gap_h self' = t_gap c' /\
    tick self' = tick self1 + 1 /\
    square self' = _Square.update (act a (square self)) /\
    reward r =
      shaped (square self') (pipes self')
             (if terminated r then - (1 # 1) else t_reward c')%Q.
Proof.
  unfold step. intro H.
  destruct (spawn self g) as [[s1 g1]|] eqn:Hsp; [|discriminate].
  destruct (update_pipes _ _) as [ps c] eqn:Hu.
  inversion H; subst r self' g'; clear H.
  exists s1, c. cbn. repeat split; try reflexivity. exact Hu.
Qed.

Lemma visit_moved p c :
  visit p c =
  (if _Pipe.off_screen (moved p c) then None else Some (moved p c),
   if crossing (_Pipe.update p (t_speed c)) then on_score c else c).
Proof.
  rewrite visit_unfold. unfold moved. cbv zeta.
  destruct (crossing _); reflexivity.
Qed.

Lemma moved_x p c : _Pipe.x (moved p c) = (_Pipe.x p - t_speed c)%Q.
Proof. unfold moved. cbv zeta. destruct (crossing _); reflexivity. Qed.

Lemma moved_shape p c :
  _Pipe.w (moved p c) = _Pipe.w p /\
  _Pipe.gap_y (moved p c) = _Pipe.gap_y p /\
  _Pipe.gap_h (moved p c) = _Pipe.gap_h p.
Proof. unfold moved. cbv zeta. destruct (crossing _); repeat split. Qed.

(** The speed a pipe leaves to the next one in the loop. *)
Lemma moved_speed p c :
  (t_speed (snd (visit p c)) == t_speed c + slack (moved p c) - slack p)%Q.
Proof.
  rewrite visit_moved. cbn [snd]. unfold moved. cbv zeta.
  destruct (crossing (_Pipe.update p (t_speed c))) eqn:E.
  - apply crossing_true in E. destruct E as (Hf & _).
    change (_Pipe.passed (_Pipe.update p (t_speed c)))
      with (_Pipe.passed p) in Hf.
    unfold slack. rewrite Hf. cbn [_Pipe.passed _Pipe.set_passed on_score t_speed].
    ring.
  - unfold slack.
    change (_Pipe.passed (_Pipe.update p (t_speed c)))
      with (_Pipe.passed p).
    ring.
Qed.

Lemma visit_speed_grows p c : (t_speed c <= t_speed (snd (visit p c)))%Q.
Proof.
  rewrite visit_moved. cbn [snd].
  destruct (crossing _); [|apply Qle_refl].
  unfold on_score, PIPE_SPEED_INC. cbn [t_speed].
  generalize (t_speed c). intro s. lra.
Qed.

(** ** What the pipe loop keeps *)

(** Every pipe the loop keeps is a pipe of the snapshot, moved once by a
    speed that is at least the speed the loop started with, and it is not off
    screen. *)
Lemma update_pipes_kept l : forall c ps c',
  update_pipes l c = (ps, c') ->
  forall q, In q ps ->
    exists p ci,
      In p l /\ q = moved p ci /\ (t_speed c <= t_speed ci)%Q /\
      _Pipe.off_screen q = false.
Proof.
  induction l as [|p l IH]; intros c ps c' Hu q Hq; cbn [update_pipes] in Hu.
  - inversion Hu; subst. destruct Hq.
  - pose proof (visit_speed_grows p c) as Hg.
    rewrite visit_moved in Hu, Hg. cbn [snd] in Hg.
    set (c1 := if crossing (_Pipe.update p (t_speed c))
               then on_score c else c) in *.
    destruct (update_pipes l c1) as [qs c2] eqn:Hr.
    assert (Hrest : In q qs ->
              exists p0 ci, In p0 (p :: l) /\ q = moved p0 ci /\
                (t_speed c <= t_speed ci)%Q /\ _Pipe.off_screen q = false).
    { intro H. destruct (IH c1 qs c2 Hr q H) as (p0 & ci & Hin & E & Hs & Ho).
      exists p0, ci. split; [right; exact Hin|]. split; [exact E|].
      split; [eapply Qle_trans; eauto | exact Ho]. }
    destruct (_Pipe.off_screen (moved p c)) eqn:Hoff;
      inversion Hu; subst ps c'; clear Hu.
    + apply Hrest; exact Hq.
    + destruct Hq as [E | Hq]; [|apply Hrest; exact Hq].
      subst q. exists p, c. split; [left; reflexivity|].
      split; [reflexivity|]. split; [apply Qle_refl | exact Hoff].
Qed.

Lemma spaced_from_weaken l : forall b b',
  (b' <= b)%Q -> spaced_from b l -> spaced_from b' l.
Proof.
  destruct l as [|p l]; intros b b' Hb H; cbn [spaced_from] in *.
  - exact I.
  - destruct H as (H1 & H2). split; [eapply Qle_trans; eauto | exact H2].
Qed.

Lemma slack_bounds p : (0 <= slack p <= PIPE_SPEED_INC)%Q.
Proof.
  unfold slack, PIPE_SPEED_INC. destruct (_Pipe.passed p); split;
    discriminate.
Qed.

(** The loop keeps the pipes apart: a pipe that is passed moves by the old
    speed and its successors by the new one, once in its life. *)
Lemma update_pipes_spaced l : forall b c ps c',
  spaced_from b l ->
  update_pipes l c = (ps, c') ->
  spaced_from (b - t_speed c) ps.
Proof.
  induction l as [|p l IH]; intros b c ps c' Hsp Hu; cbn [update_pipes] in Hu.
  - inversion Hu; subst. exact I.
  - cbn [spaced_from] in Hsp. destruct Hsp as (Hb & Hrest).
    pose proof (moved_speed p c) as Hs.
    pose proof (moved_x p c) as Hx.
    pose proof (slack_bounds (moved p c)) as (Hl0 & Hl1).
    destruct (visit p c) as [o c1] eqn:Hv. cbn [snd] in Hs.
    destruct (update_pipes l c1) as [qs c2] eqn:Hr.
    specialize (IH _ c1 qs c2 Hrest Hr).
    assert (Hchain : spaced_from
              (_Pipe.x (moved p c) + PIPE_SPACING - slack (moved p c)) qs).
    { eapply spaced_from_weaken; [|exact IH].
      rewrite Hx, Hs. apply Qle_lteq. right. ring. }
    rewrite visit_moved in Hv.
    destruct (_Pipe.off_screen (moved p c));
      inversion Hv; subst o; clear Hv;
      inversion Hu; subst ps c'; clear Hu.
    + eapply spaced_from_weaken; [|exact Hchain].
      rewrite Hx. unfold PIPE_SPACING, PIPE_SPEED_INC in *.
      change (float PIPE_INTERVAL_TICKS * PIPE_SPEED_START)%Q
        with ((90 # 1) * (3 # 1))%Q.
      revert Hb Hl1. generalize (slack (moved p c)) (_Pipe.x p) (t_speed c).
      intros sl x s Hb Hl1. lra.
    + cbn [spaced_from]. split; [|exact Hchain].
      rewrite Hx. revert Hb. generalize (_Pipe.x p) (t_speed c).
      intros x s Hb. lra.
Qed.

Lemma spaced_from_spaced b l : spaced_from b l -> spaced l.
Proof. destruct l as [|p l]; [trivial|]. intros (_ & H). exact H. Qed.

Lemma spaced_spaced_from l :
  spaced l -> exists b, spaced_from b l.
Proof.
  destruct l as [|p l]; intro H.
  - exists 0%Q. exact I.
  - exists (_Pipe.x p). split; [apply Qle_refl | exact H].
Qed.

(** A pipe created at the right edge stays clear of pipes that are a full
    spawn interval old. *)
Lemma spaced_from_snoc l : forall b q,
  spaced_from b l ->
  Forall (fun p => (_Pipe.x p <= float WIDTH - PIPE_SPACING)%Q) l ->
  (b <= _Pipe.x q)%Q ->
  (_Pipe.x q == float WIDTH)%Q ->
  spaced_from b (l ++ [q]).
Proof.
  induction l as [|p l IH]; intros b q Hsp Hall Hb Hq; cbn [app spaced_from].
  - split; [exact Hb | exact I].
  - destruct Hsp as (H1 & H2). inversion Hall as [|? ? Hp Hl]; subst.
    split; [exact H1|]. apply IH; [exact H2 | exact Hl | | exact Hq].
    rewrite Hq. pose proof (slack_bounds p) as (Hs & _).
    revert Hp Hs. generalize (_Pipe.x p) (slack p) PIPE_SPACING (float WIDTH).
    intros x s d w Hp Hs. lra.
Qed.

Lemma spaced_snoc l q :
  spaced l ->
  Forall (fun p => (_Pipe.x p <= float WIDTH - PIPE_SPACING)%Q) l ->
  (_Pipe.x q == float WIDTH)%Q ->
  spaced (l ++ [q]).
Proof.
  destruct l as [|p l]; intros Hsp Hall Hq; cbn [app spaced].
  - exact I.
  - inversion Hall as [|? ? Hp Hl]; subst.
    apply spaced_from_snoc; [exact Hsp | exact Hl | | exact Hq].
    rewrite Hq. pose proof (slack_bounds p) as (Hs & _).
    revert Hp Hs. generalize (_Pipe.x p) (slack p) PIPE_SPACING (float WIDTH).
    intros x s d w Hp Hs. lra.
Qed.

(** ** The phase of the spawn cycle *)

Lemma phase_range t : 1 <= phase t <= 90.
Proof.
  unfold phase, PIPE_INTERVAL_TICKS.
  pose proof (Z.mod_pos_bound (t - 1) 90). lia.
Qed.

Lemma phase_spawn t : t mod PIPE_INTERVAL_TICKS = 0 -> phase t = 90.
Proof.
  unfold phase, PIPE_INTERVAL_TICKS. intro H.
  Z.div_mod_to_equations. lia.
Qed.

Lemma phase_succ t :
  phase (t + 1) =
  if t mod PIPE_INTERVAL_TICKS =? 0 then 1 else phase t + 1.
Proof.
  unfold phase, PIPE_INTERVAL_TICKS.
  replace (t + 1 - 1) with t by lia.
  destruct (t mod 90 =? 0) eqn:E;
    [apply Z.eqb_eq in E | apply Z.eqb_neq in E];
    Z.div_mod_to_equations; lia.
Qed.

Lemma float_sub3 (k : Z) :
  (float (WIDTH - 3 * k) == (480 # 1) - (3 # 1) * float k)%Q.
Proof.
  unfold WIDTH. change (480 # 1)%Q with (float 480).
  change (3 # 1)%Q with (float 3).
  rewrite <- inject_Z_mult. unfold Qminus.
  rewrite <- inject_Z_opp, <- inject_Z_plus. reflexivity.
Qed.

(** ** The further invariant *)

Lemma update_square_vel a sq :
  (FLAP_STRENGTH + GRAVITY <= _Square.vel sq)%Q ->
  (FLAP_STRENGTH + GRAVITY <= _Square.vel (_Square.update (act a sq)))%Q.
Proof.
  unfold act, _Square.update, _Square.flap. intro H.
  destruct (a =? 1); cbn [_Square.vel].
  - apply Qle_refl.
  - unfold GRAVITY, FLAP_STRENGTH in *. revert H.
    generalize (_Square.vel sq). intros v H. lra.
Qed.

Lemma step_pipes_ok a self g r self' g' :
  env_ok self -> pipes_ok self ->
  step a self g = Some (r, self', g') ->
  pipes_ok self'.
Proof.
  intros (Ht & Hc & _ & _) (Hfit & Hpl & Hsp & Hvel) Hstep.
  pose proof (tally_ok_speed_pos _ Hc) as Hspeed. cbn [env_tally t_speed] in Hspeed.
  pose proof (tally_ok_gap _ Hc) as Hgap. cbn [env_tally t_gap] in Hgap.
  destruct (step_cases _ _ _ _ _ _ Hstep)
    as (s1 & c' & Hspawn & Hu & _ & _ & _ & Htick & Hsq & _).
  destruct (spawn_cases _ _ _ _ Hspawn)
    as (_ & _ & Ht1 & Hv1 & _ & _ & Hcases).
  rewrite Ht1 in Htick.
  set (B := if tick self mod PIPE_INTERVAL_TICKS =? 0
            then float WIDTH else float (WIDTH - 3 * phase (tick self))).
  assert (Hpre : Forall gap_fits (pipes s1) /\
                 Forall (fun p => (_Pipe.x p <= B)%Q) (pipes s1) /\
                 spaced (pipes s1)).
  { destruct Hcases as [(Hn & Hp & _) | (Hz & _ & gy & Hgy & Hp)];
      rewrite Hp; unfold B.
    - apply Z.eqb_neq in Hn. rewrite Hn.
      split; [exact Hfit|]. split; [|exact Hsp].
      eapply Forall_impl; [|exact Hpl]. intros p (_ & H). exact H.
    - assert (Hold : Forall (fun p => (_Pipe.x p
                               <= float WIDTH - PIPE_SPACING)%Q) (pipes self)).
      { eapply Forall_impl; [|exact Hpl]. intros p (_ & H).
        rewrite (phase_spawn _ Hz) in H.
        eapply Qle_trans; [exact H|]. discriminate. }
      apply Z.eqb_eq in Hz. rewrite Hz.
      split; [|split].
      + apply Forall_app. split; [exact Hfit|]. constructor; [|constructor].
        unfold gap_fits, _Pipe.init; cbn. unfold HEIGHT in *. lia.
      + apply Forall_app. split.
        * eapply Forall_impl; [|exact Hold]. intros p H.
          eapply Qle_trans; [exact H|]. discriminate.
        * constructor; [apply Qle_refl | constructor].
      + apply spaced_snoc; [exact Hsp | exact Hold | reflexivity]. }
  destruct Hpre as (Hfit1 & HB & Hsp1).
  assert (HB3 : (B - (3 # 1) == float (WIDTH - 3 * phase (tick self + 1)))%Q).
  { unfold B. rewrite phase_succ.
    destruct (tick self mod PIPE_INTERVAL_TICKS =? 0).
    - reflexivity.
    - rewrite !float_sub3, inject_Z_plus. change (float 1) with 1%Q. ring. }
  rewrite Forall_forall in Hfit1, HB.
  split; [|split; [|split]].
  - apply Forall_forall. intros q Hq.
    destruct (update_pipes_kept _ _ _ _ Hu q Hq) as (p & ci & Hin & E & _ & _).
    subst q. destruct (moved_shape p ci) as (E1 & E2 & E3).
    unfold gap_fits. rewrite E1, E2, E3. apply Hfit1; exact Hin.
  - apply Forall_forall. intros q Hq.
    destruct (update_pipes_kept _ _ _ _ Hu q Hq) as (p & ci & Hin & E & Hs & Ho).
    split; [exact Ho|]. rewrite Htick, <- HB3. subst q. rewrite moved_x.
    cbn [t_speed] in Hs. rewrite Hv1 in Hs.
    specialize (HB p Hin). revert HB Hs Hspeed.
    generalize (_Pipe.x p) (t_speed ci) (pipe_speed self) B.
    intros x s v b HB Hs Hspeed. lra.
  - destruct (spaced_spaced_from _ Hsp1) as (b & Hb).
    eapply spaced_from_spaced. eapply update_pipes_spaced; eauto.
  - rewrite Hsq. apply update_square_vel. exact Hvel.
Qed.

Lemma reachable_pipes_ok self : reachable self -> pipes_ok self.
Proof.
  induction 1 as [seed self | a self g r self' g' Hr IH Hstep].
  - unfold pipes_ok; cbn. repeat split; try constructor. discriminate.
  - eapply step_pipes_ok; eauto. apply reachable_ok; exact Hr.
Qed.

(** ** The live pipes *)

Lemma off_screen_false p :
  _Pipe.off_screen p = false <-> (0 <= _Pipe.trailing p)%Q.
Proof. unfold _Pipe.off_screen, _Pipe.trailing. apply Qltb_ge. Qed.

(** X1. In every reachable state each live pipe has the default width 60,
    a gap height between [GAP_MIN] and [GAP_START], and a gap that lies on
    the screen at least 60 from the top and from the bottom; so both of its
    rectangles are at least 60 high. *)
Theorem live_pipes_fit (self : FlappyEnv) :
  reachable self ->
  forall p, In p (pipes self) ->
    _Pipe.w p = 60 /\
    GAP_MIN <= _Pipe.gap_h p <= GAP_START /\
    60 <= _Pipe.gap_y p /\
    _Pipe.gap_y p + _Pipe.gap_h p <= HEIGHT - 60 /\
    60 <= Rect.h (fst (_Pipe.rects p)) /\
    60 <= Rect.h (snd (_Pipe.rects p)).
Proof.
  intros Hr p Hp. destruct (reachable_pipes_ok _ Hr) as (Hfit & _).
  rewrite Forall_forall in Hfit. destruct (Hfit p Hp) as (Hw & Hy & Hb & Hg).
  cbn [_Pipe.rects fst snd Rect.h]. repeat split; try assumption; lia.
Qed.

(** X2. In every reachable state no live pipe is off screen (a pipe is
    removed on the very tick its trailing edge goes below 0), and [phase]
    ticks after a spawn every live pipe is at least [3 * phase] left of the
    right edge: at most at 477 after any step, at most at 210 when the next
    pipe is created. *)
Theorem live_pipes_on_screen (self : FlappyEnv) :
  reachable self ->
  forall p, In p (pipes self) ->
    _Pipe.off_screen p = false /\
    (0 <= _Pipe.trailing p)%Q /\
    (_Pipe.x p <= float (WIDTH - 3 * phase (tick self)))%Q /\
    (_Pipe.x p <= float (WIDTH - 3))%Q /\
    (tick self mod PIPE_INTERVAL_TICKS = 0 -> (_Pipe.x p <= 210 # 1)%Q).
Proof.
  intros Hr p Hp. destruct (reachable_pipes_ok _ Hr) as (_ & Hpl & _).
  rewrite Forall_forall in Hpl. destruct (Hpl p Hp) as (Ho & Hx).
  split; [exact Ho|]. split; [apply off_screen_false; exact Ho|].
  split; [exact Hx|]. split.
  - eapply Qle_trans; [exact Hx|]. rewrite <- Zle_Qle.
    pose proof (phase_range (tick self)). unfold WIDTH. lia.
  - intro Hz. rewrite (phase_spawn _ Hz) in Hx. exact Hx.
Qed.

Lemma spaced_from_pairs l : forall b,
  spaced_from b l ->
  Forall (fun q => (b <= _Pipe.x q)%Q) l /\ ForallOrdPairs well_ahead l.
Proof.
  induction l as [|p l IH]; intros b H; cbn [spaced_from] in H.
  - split; constructor.
  - destruct H as (Hb & Hrest). destruct (IH _ Hrest) as (Hall & Hpairs).
    pose proof (slack_bounds p) as (Hs0 & Hs1).
    assert (Hsp : (PIPE_SPACING == 270 # 1)%Q) by reflexivity.
    split.
    + constructor; [exact Hb|]. eapply Forall_impl; [|exact Hall].
      intros q Hq. cbv beta in Hq. rewrite Hsp in Hq.
      unfold PIPE_SPEED_INC in Hs1. revert Hb Hq Hs1.
      generalize (_Pipe.x p) (_Pipe.x q) (slack p). intros x y s Hb Hq Hs1.
      lra.
    + constructor; [|exact Hpairs]. eapply Forall_impl; [|exact Hall].
      intros q Hq. cbv beta in Hq. unfold well_ahead.
      rewrite Hsp in *. unfold PIPE_SPEED_INC in *. revert Hq Hs1.
      generalize (_Pipe.x p) (_Pipe.x q) (slack p). intros x y s Hq Hs1.
      lra.
Qed.

(** X3. In every reachable state the live pipes lie left to right in list
    order (the order of creation), any later pipe at least 269.85 to the
    right of any earlier one: the 270 a pipe covers in a spawn interval at the
    starting speed, less the one speed increment of 0.15 the earlier pipe
    gave up on the tick it was passed. *)
Theorem live_pipes_spaced (self : FlappyEnv) :
  reachable self ->
  ForallOrdPairs
    (fun p q => (_Pipe.x p + (26985 # 100) <= _Pipe.x q)%Q) (pipes self).
Proof.
  intro Hr. destruct (reachable_pipes_ok _ Hr) as (_ & _ & Hsp & _).
  destruct (spaced_spaced_from _ Hsp) as (b & Hb).
  destruct (spaced_from_pairs _ _ Hb) as (_ & H).
  assert (Himp : forall l, ForallOrdPairs well_ahead l ->
            ForallOrdPairs
              (fun p q => (_Pipe.x p + (26985 # 100) <= _Pipe.x q)%Q) l).
  { induction 1 as [|p l Hp Hl IH]; constructor; [|exact IH].
    eapply Forall_impl; [|exact Hp]. intros q Hq. unfold well_ahead in Hq.
    eapply Qle_trans; [|exact Hq]. apply Qplus_le_r. discriminate. }
  apply Himp. exact H.
Qed.

(** Three pipes do not fit between the left edge and the newest pipe. *)
Lemma live_pipes_count (self : FlappyEnv) :
  reachable self -> (length (pipes self) <= 2)%nat.
Proof.
  intro Hr. destruct (reachable_pipes_ok _ Hr) as (Hfit & Hpl & Hsp & _).
  destruct (spaced_spaced_from _ Hsp) as (b & Hb).
  destruct (spaced_from_pairs _ _ Hb) as (_ & Hpairs).
  destruct (pipes self) as [|p0 [|p1 [|p2 rest]]]; cbn [length]; try lia.
  exfalso.
  inversion Hpairs as [|? ? H0 Hp1]; subst.
  inversion Hp1 as [|? ? H1 _]; subst.
  inversion H0 as [|? ? H01 _]; subst.
  inversion H1 as [|? ? H12 _]; subst.
  inversion Hpl as [|? ? (Ho0 & _) Hpl1]; subst.
  inversion Hpl1 as [|? ? _ Hpl2]; subst.
  inversion Hpl2 as [|? ? (_ & Hx2) _]; subst.
  inversion Hfit as [|? ? (Hw0 & _) _]; subst.
  apply off_screen_false in Ho0. unfold _Pipe.trailing in Ho0.
  rewrite Hw0 in Ho0. change (float 60) with (60 # 1)%Q in Ho0.
  assert (Hx2' : (_Pipe.x p2 <= 477 # 1)%Q).
  { eapply Qle_trans; [exact Hx2|].
    change (477 # 1)%Q with (float 477). rewrite <- Zle_Qle.
    pose proof (phase_range (tick self)). unfold WIDTH. lia. }
  unfold well_ahead in *.
  assert (Hsp' : (PIPE_SPACING - PIPE_SPEED_INC == 26985 # 100)%Q)
    by reflexivity.
  rewrite Hsp' in *.
  revert Ho0 H01 H12 Hx2'.
  generalize (_Pipe.x p0) (_Pipe.x p1) (_Pipe.x p2).
  intros x0 x1 x2 Ho0 H01 H12 Hx2'. lra.
Qed.

(** X4. In every reachable state at most two pipes are live. *)
Theorem at_most_two_pipes (self : FlappyEnv) :
  reachable self -> (length (pipes self) <= 2)%nat.
Proof. intro Hr. apply live_pipes_count. exact Hr. Qed.

(** ** The next pipe, again *)

Lemma min_from_head best l :
  Forall (fun q => (_Pipe.x best <= _Pipe.x q)%Q) l -> min_from best l = best.
Proof.
  induction 1 as [|p l Hp Hl IH]; cbn [min_from]; [reflexivity|].
  rewrite (proj2 (Qltb_ge _ _) Hp). exact IH.
Qed.

Lemma filter_ordered (R : _Pipe.t -> _Pipe.t -> Prop) f l :
  ForallOrdPairs R l -> ForallOrdPairs R (filter f l).
Proof.
  induction 1 as [|p l Hp Hl IH]; cbn [filter]; [constructor|].
  destruct (f p); [|exact IH]. constructor; [|exact IH].
  apply Forall_forall. intros q Hq. apply filter_In in Hq.
  rewrite Forall_forall in Hp. apply Hp. apply Hq.
Qed.

Lemma hd_filter_find (f : _Pipe.t -> bool) l :
  hd_error (filter f l) = find f l.
Proof.
  induction l as [|p l IH]; cbn [filter find]; [reflexivity|].
  destruct (f p); [reflexivity | exact IH].
Qed.

Lemma upcoming_unpassed p :
  pipe_ok p -> upcoming p = negb (_Pipe.passed p).
Proof.
  intros (_ & _ & Hp & _). rewrite quarter_width in Hp.
  destruct (_Pipe.passed p) eqn:E; cbn [negb].
  - apply upcoming_false. apply Hp. reflexivity.
  - destruct (upcoming p) eqn:U; [reflexivity|].
    apply upcoming_false in U. apply Hp in U. discriminate.
Qed.

(** X5. In every reachable state the pipe [min] selects as the next pipe is
    the first pipe, in list order, whose trailing edge is not left of
    [WIDTH // 4]; that is the oldest live pipe that has not been passed. *)
Theorem next_pipe_is_oldest_unpassed (self : FlappyEnv) :
  reachable self ->
  next_pipe (pipes self) = find upcoming (pipes self) /\
  next_pipe (pipes self)
  = find (fun p => negb (_Pipe.passed p)) (pipes self).
Proof.
  intro Hr.
  assert (H1 : next_pipe (pipes self) = find upcoming (pipes self)).
  { destruct (reachable_pipes_ok _ Hr) as (_ & _ & Hsp & _).
    destruct (spaced_spaced_from _ Hsp) as (b & Hb).
    destruct (spaced_from_pairs _ _ Hb) as (_ & Hpairs).
    apply (filter_ordered _ upcoming) in Hpairs.
    rewrite <- hd_filter_find. unfold next_pipe, min_by_x.
    destruct (filter upcoming (pipes self)) as [|p l]; [reflexivity|].
    inversion Hpairs as [|? ? Hp _]; subst. cbn [hd_error]. f_equal.
    apply min_from_head. eapply Forall_impl; [|exact Hp].
    intros q Hq. unfold well_ahead in Hq.
    eapply Qle_trans; [|exact Hq].
    setoid_replace (_Pipe.x p) with (_Pipe.x p + 0)%Q at 1 by ring.
    apply Qplus_le_r. discriminate. }
  split; [exact H1|]. rewrite H1. clear H1.
  destruct (reachable_ok _ Hr) as (_ & _ & Hok & _).
  induction Hok as [|p l Hp Hl IH]; cbn [find]; [reflexivity|].
  rewrite (upcoming_unpassed p Hp). destruct (negb (_Pipe.passed p));
    [reflexivity | exact IH].
Qed.

(** ** Collisions *)

Lemma int_nonneg (q : Q) : (0 <= q)%Q -> 0 <= int q.
Proof.
  unfold Qle, int; cbn. rewrite Z.mul_1_r. intro H.
  apply Z.quot_pos; lia.
Qed.

Lemma int_below (q : Q) : (0 <= q)%Q -> (float (int q) <= q)%Q.
Proof.
  unfold Qle, int; cbn. rewrite !Z.mul_1_r. intro H.
  rewrite Z.mul_comm. apply Z.mul_quot_le; lia.
Qed.

Lemma colliderect_positive (A B : Rect.t) :
  0 < Rect.w A -> 0 < Rect.h A -> 0 < Rect.w B -> 0 < Rect.h B ->
  (Rect.colliderect A B = true <->
   Rect.x A < Rect.x B + Rect.w B /\ Rect.y A < Rect.y B + Rect.h B /\
   Rect.x B < Rect.x A + Rect.w A /\ Rect.y B < Rect.y A + Rect.h A).
Proof.
  intros H1 H2 H3 H4. unfold Rect.colliderect.
  assert (E : (Rect.w A =? 0) || (Rect.h A =? 0) || (Rect.w B =? 0)
              || (Rect.h B =? 0) = false).
  { rewrite !orb_false_iff. repeat split; apply Z.eqb_neq; lia. }
  rewrite E. rewrite !andb_true_iff, !Z.ltb_lt. lia.
Qed.

(** Against a pipe of the usual shape, for a square on the screen: the square
    hits the pipe exactly when the columns overlap and the square's rectangle
    reaches above or below the gap. *)
Lemma hits_iff sq p :
  gap_fits p ->
  (0 <= _Square.y sq)%Q ->
  (_Square.y sq + float SQUARE_SIZE <= float HEIGHT)%Q ->
  (hits sq p = false <-> (in_column p -> in_gap sq p)).
Proof.
  intros (Hw & Hy & Hb & Hg) H0 H1.
  pose proof (int_nonneg _ H0) as Hi0.
  assert (Hi1 : int (_Square.y sq) + SQUARE_SIZE <= HEIGHT).
  { rewrite Zle_Qle, inject_Z_plus.
    eapply Qle_trans; [|exact H1]. apply Qplus_le_l. apply int_below; exact H0. }
  unfold hits, _Pipe.rects, in_column, in_gap.
  rewrite orb_false_iff. rewrite <- !not_true_iff_false.
  unfold _Square.rect.
  rewrite !colliderect_positive;
    cbn [Rect.x Rect.y Rect.w Rect.h];
    unfold SQUARE_SIZE, HEIGHT, WIDTH, GAP_MIN in *;
    change (480 / 4) with 120; try lia.
Qed.

(** X6. For a step from a reachable state, [done] is [False] exactly when the
    square is on the screen ([0 <= y] and [y + 38 <= 640]) and, for every live
    pipe whose column [[int(x), int(x) + 60)] overlaps the square's column
    [[120, 158)], the square's rectangle lies in the gap:
    [gap_y <= int(y)] and [int(y) + 38 <= gap_y + gap_h]. *)
Theorem survives_iff_in_gap (a : Z) (self : FlappyEnv) (g : RandomState)
  (r : StepResult) (self' : FlappyEnv) (g' : RandomState) :
  reachable self ->
  step a self g = Some (r, self', g') ->
  (terminated r = false <->
   (0 <= _Square.y (square self'))%Q /\
   (_Square.y (square self') + float SQUARE_SIZE <= float HEIGHT)%Q /\
   forall p, In p (pipes self') ->
     in_column p -> in_gap (square self') p).
Proof.
  intros Hr Hs.
  pose proof (reach_step _ _ _ _ _ _ Hr Hs) as Hr'.
  destruct (reachable_pipes_ok _ Hr') as (Hfit & _).
  rewrite Forall_forall in Hfit.
  destruct (step_returns _ _ _ _ _ _ Hs) as (_ & _ & _ & Ht & _).
  rewrite Ht. unfold collided. rewrite !orb_false_iff, Qltb_ge, Qltb_ge.
  split.
  - intros ((H0 & H1) & He). split; [exact H0|]. split; [exact H1|].
    intros p Hp. apply (hits_iff _ _ (Hfit p Hp) H0 H1).
    destruct (hits (square self') p) eqn:E; [|reflexivity].
    assert (existsb (hits (square self')) (pipes self') = true)
      by (apply existsb_exists; exists p; auto).
    congruence.
  - intros (H0 & H1 & Hall). split; [split; assumption|].
    destruct (existsb _ _) eqn:E; [|reflexivity].
    apply existsb_exists in E. destruct E as (p & Hp & Hh).
    pose proof (proj2 (hits_iff _ _ (Hfit p Hp) H0 H1) (Hall p Hp)).
    congruence.
Qed.

(** ** Rewards *)

Lemma update_pipes_reward l : forall c ps c',
  update_pipes l c = (ps, c') ->
  t_score c <= t_score c' /\
  (t_reward c' == t_reward c + float (t_score c' - t_score c))%Q.
Proof.
  induction l as [|p l IH]; intros c ps c' Hu; cbn [update_pipes] in Hu.
  - inversion Hu; subst. split; [lia|]. rewrite Z.sub_diag. ring.
  - rewrite visit_moved in Hu.
    set (c1 := if crossing (_Pipe.update p (t_speed c))
               then on_score c else c) in *.
    destruct (update_pipes l c1) as [qs c2] eqn:Hr.
    destruct (IH c1 qs c2 Hr) as (Hs & Hrw).
    assert (Hc1 : t_score c <= t_score c1 /\
                  (t_reward c1 == t_reward c
                                  + float (t_score c1 - t_score c))%Q).
    { unfold c1. destruct (crossing _); cbn [on_score t_score t_reward].
      - split; [lia|]. replace (t_score c + 1 - t_score c) with 1 by lia.
        reflexivity.
      - split; [lia|]. rewrite Z.sub_diag. ring. }
    destruct Hc1 as (Hs1 & Hrw1).
    assert (c' = c2) by (destruct (_Pipe.off_screen _); inversion Hu; auto).
    subst c'. split; [lia|]. rewrite Hrw, Hrw1.
    replace (t_score c2 - t_score c)
      with ((t_score c1 - t_score c) + (t_score c2 - t_score c1)) by lia.
    rewrite inject_Z_plus. ring.
Qed.

Lemma shaped_shaping sq ps r0 : (shaped sq ps r0 == r0 + shaping sq ps)%Q.
Proof.
  unfold shaped, shaping. destruct (next_pipe ps); [reflexivity | ring].
Qed.

(** X7. The reward of a step, whatever the state: with [done = True] it is
    -1 plus the shaping term; with [done = False] it is -0.01, plus 1 for
    every pipe passed on this tick (the increase of the score), plus the
    shaping term.  The shaping term is that of the next pipe, and 0 when
    there is none. *)
Theorem reward_decomposition (a : Z) (self : FlappyEnv) (g : RandomState)
  (r : StepResult) (self' : FlappyEnv) (g' : RandomState) :
  step a self g = Some (r, self', g') ->
  score self <= score self' /\
  info_score r = score self' /\
  (terminated r = true ->
   (reward r == - (1) + shaping (square self') (pipes self'))%Q) /\
  (terminated r = false ->
   (reward r
    == - (1 # 100) + float (score self' - score self)
       + shaping (square self') (pipes self'))%Q).
Proof.
  intro Hs.
  destruct (step_cases _ _ _ _ _ _ Hs)
    as (s1 & c' & Hspawn & Hu & Hsc & _ & _ & _ & _ & Hrw).
  destruct (spawn_cases _ _ _ _ Hspawn) as (_ & _ & _ & _ & _ & Hsc1 & _).
  destruct (update_pipes_reward _ _ _ _ Hu) as (Hle & Hrc).
  cbn [t_score t_reward] in Hle, Hrc. rewrite Hsc1, <- Hsc in *.
  destruct (step_returns _ _ _ _ _ _ Hs) as (_ & _ & _ & _ & Hinfo & _).
  split; [exact Hle|]. split; [exact Hinfo|].
  rewrite Hrw, shaped_shaping. split; intro Ht; rewrite Ht.
  - reflexivity.
  - rewrite Hrc. reflexivity.
Qed.





(** ** The square *)

Lemma steps_square actions : forall self g rs self' g',
  steps actions self g = Some (rs, self', g') ->
  square self' = fly actions (square self).
Proof.
  induction actions as [|a rest IH]; intros self g rs self' g' H;
    cbn [steps fly fold_left] in *.
  - inversion H; subst. reflexivity.
  - destruct (step a self g) as [[[r s1] g1]|] eqn:E; [|discriminate].
    destruct (steps rest s1 g1) as [[[rs1 s2] g2]|] eqn:E2; [|discriminate].
    inversion H; subst. rewrite (IH _ _ _ _ _ E2).
    destruct (step_returns _ _ _ _ _ _ E) as (_ & Hsq & _).
    rewrite Hsq. reflexivity.
Qed.

Lemma fly_none k : forall sq,
  (_Square.vel (fly (repeat NONE k) sq)
   == _Square.vel sq + GRAVITY * float (Z.of_nat k))%Q /\
  (_Square.y (fly (repeat NONE k) sq)
   == _Square.y sq + float (Z.of_nat k) * _Square.vel sq
      + (GRAVITY / 2) * float (Z.of_nat k) * (float (Z.of_nat k) + 1))%Q.
Proof.
  induction k as [|k IH]; intro sq.
  - cbn. split; [ring | field].
  - cbn [repeat fly fold_left]. change (act NONE sq) with sq.
    destruct (IH (_Square.update sq)) as (Hv & Hy).
    change (fold_left (fun s a => _Square.update (act a s)) (repeat NONE k)
              (_Square.update sq))
      with (fly (repeat NONE k) (_Square.update sq)).
    rewrite Hv, Hy. unfold _Square.update; cbn [_Square.vel _Square.y].
    rewrite Nat2Z.inj_succ. unfold Z.succ. rewrite inject_Z_plus.
    change (float 1) with 1%Q.
    generalize (float (Z.of_nat k)) (_Square.vel sq) (_Square.y sq).
    intros K v y. split; [ring | unfold GRAVITY; field].
Qed.

(** X9. The square's state after a sequence of steps depends on the actions
    alone, not on the pipes or on the generator; and [k] steps without a flap
    add [k * GRAVITY] to the velocity and
    [k * vel + GRAVITY * k * (k + 1) / 2] to the position. *)
Theorem free_fall_closed_form (k : nat) (self : FlappyEnv) (g : RandomState)
  (rs : list StepResult) (self' : FlappyEnv) (g' : RandomState) :
  steps (repeat NONE k) self g = Some (rs, self', g') ->
  (_Square.vel (square self')
   == _Square.vel (square self) + GRAVITY * float (Z.of_nat k))%Q /\
  (_Square.y (square self')
   == _Square.y (square self)
      + float (Z.of_nat k) * _Square.vel (square self)
      + (GRAVITY / 2) * float (Z.of_nat k) * (float (Z.of_nat k) + 1))%Q.
Proof.
  intro H. rewrite (steps_square _ _ _ _ _ _ H). apply fly_none.
Qed.

(** ** Observations *)

(** X10. In every reachable state component 3 of the observation lies in
    [[0, 1]] and component 2 is at least -0.715: the velocity never falls
    below the flap impulse plus gravity. *)
Theorem observation_lower_bounds (self : FlappyEnv) :
  reachable self ->
  (FLAP_STRENGTH + GRAVITY <= _Square.vel (square self))%Q /\
  (- (715 # 1000) <= o2 (_get_obs self))%Q /\
  (0 <= o3 (_get_obs self) <= 1)%Q.
Proof.
  intro Hr. destruct (reachable_pipes_ok _ Hr) as (Hfit & _ & _ & Hvel).
  destruct (reachable_ok _ Hr) as (_ & Hc & _ & _).
  pose proof (tally_ok_gap _ Hc) as Hgap. cbn [env_tally t_gap] in Hgap.
  rewrite Forall_forall in Hfit.
  split; [exact Hvel|]. split.
  - assert (E : forall s, o2 (_get_obs s) = (_Square.vel (square s) / 10)%Q).
    { intro s. unfold _get_obs. destruct (next_pipe (pipes s)); reflexivity. }
    rewrite E. apply Qle_shift_div_l; [reflexivity|].
    eapply Qle_trans; [|exact Hvel]. discriminate.
  - assert (Hgh : exists gh, GAP_MIN <= gh <= GAP_START /\
              o3 (_get_obs self)
              = (float (gh - GAP_MIN) / float (GAP_START - GAP_MIN))%Q).
    { unfold _get_obs. destruct (next_pipe (pipes self)) as [np|] eqn:E.
      - destruct (next_pipe_some _ _ E) as (Hin & _).
        destruct (Hfit np Hin) as (_ & _ & _ & Hg).
        exists (_Pipe.gap_h np). split; [exact Hg | reflexivity].
      - exists (gap_h self). split; [exact Hgap | reflexivity]. }
    destruct Hgh as (gh & Hg & E). rewrite E.
    unfold GAP_MIN, GAP_START in *. split.
    + apply Qle_shift_div_l; [reflexivity|]. rewrite Qmult_0_l.
      change 0%Q with (float 0). rewrite <- Zle_Qle. lia.
    + apply Qle_shift_div_r; [reflexivity|]. rewrite Qmult_1_l.
      rewrite <- Zle_Qle. lia.
Qed.

(** X11. The observations are not confined to the declared observation
    space: after [reset], for every seed, object and generator state, [n]
    steps without a flap with [29 <= n <= 39] end in a step that returns
    [done = False] and an observation whose component 2 exceeds 1. *)
Theorem observation_leaves_space (n : nat) (seed : option Z)
  (self : FlappyEnv) (g : RandomState) :
  (29 <= n <= 39)%nat ->
  exists rs r self',
    run seed (repeat NONE n) self g
    = Some (fst (reset seed self), rs ++ [r], self', advance g) /\
    terminated r = false /\
    (1 < o2 (obs r))%Q /\
    ~ in_observation_space (obs r).
Proof.
  intro Hn. destruct n as [|[|j]]; try lia.
  change (repeat NONE (S (S j))) with (NONE :: repeat NONE (S j)).
  change (repeat NONE (S j)) with (NONE :: repeat NONE j).
  rewrite (repeat_cons j NONE).
  rewrite early_run by (rewrite length_app, repeat_length; cbn; lia).
  cbv zeta. rewrite early_results_snoc.
  set (np := seed_np_random seed self).
  set (gy := first_gap_y g).
  set (sq1 := _Square.update (act NONE _Square.init)).
  rewrite !length_app, !repeat_length. cbn [length].
  replace (j + 1)%nat with (S j) by lia.
  rewrite <- (repeat_cons j NONE).
  change (NONE :: repeat NONE j) with (repeat NONE (S j)).
  set (sq := fly (repeat NONE (S j)) sq1).
  assert (F1 : falling 1 sq1) by (apply falling_update, falling_init).
  assert (F : falling (1 + S j) sq) by (apply (falling_fly (S j) 1 sq1 F1)).
  set (r := result_in (early_state np sq gy (S (1 + j)))).
  assert (Ht : terminated r = false).
  { change (collided sq [first_pipe gy (S (1 + j))] = false).
    apply falling_safe; [exact F | lia]. }
  assert (Ho : (1 < o2 (obs r))%Q).
  { assert (E : o2 (obs r) = (_Square.vel sq / 10)%Q).
    { unfold r, result_in. cbn [obs]. unfold _get_obs.
      destruct (next_pipe _); reflexivity. }
    rewrite E. destruct F as (Hv & _).
    apply Qlt_shift_div_l; [reflexivity|]. rewrite Hv, Qmult_1_l.
    assert (H29 : (29 # 1 <= float (Z.of_nat (1 + S j)))%Q)
      by (change (29 # 1)%Q with (float 29); rewrite <- Zle_Qle; lia).
    revert H29. unfold GRAVITY. generalize (float (Z.of_nat (1 + S j))).
    intros K H29. lra. }
  exists (result_in (early_state np sq1 gy 1)
          :: early_results (repeat NONE j) np sq1 gy 1), r,
         (early_state np sq gy (S (S j))).
  split; [reflexivity|]. split; [exact Ht|]. split; [exact Ho|].
  intros (_ & _ & (_ & H) & _). apply (Qlt_not_le _ _ Ho H).
Qed.

(** ** The course of the pipes *)

Lemma moved_same p q c :
  same_pipe p q -> same_pipe (moved p c) (moved q c).
Proof.
  intros (Hx & Hw & Hg & Hp). unfold moved. cbv zeta.
  assert (E : crossing (_Pipe.update p (t_speed c))
              = crossing (_Pipe.update q (t_speed c))).
  { unfold crossing, _Pipe.trailing, _Pipe.update; cbn.
    rewrite Hx, Hw, Hp. reflexivity. }
  rewrite <- E. destruct (crossing _); unfold same_pipe; cbn;
    rewrite Hx; auto.
Qed.

Lemma off_screen_same p q :
  same_pipe p q -> _Pipe.off_screen p = _Pipe.off_screen q.
Proof.
  intros (Hx & Hw & _). unfold _Pipe.off_screen. rewrite Hx, Hw. reflexivity.
Qed.

Lemma update_pipes_same l1 : forall l2 c ps1 c1 ps2 c2,
  Forall2 same_pipe l1 l2 ->
  update_pipes l1 c = (ps1, c1) ->
  update_pipes l2 c = (ps2, c2) ->
  c1 = c2 /\ Forall2 same_pipe ps1 ps2.
Proof.
  induction l1 as [|p l1 IH]; intros l2 c ps1 c1 ps2 c2 Hl H1 H2;
    inversion Hl as [|? q ? l2' Hpq Hrest]; subst;
    cbn [update_pipes] in H1, H2.
  - inversion H1; inversion H2; subst. split; [reflexivity | constructor].
  - rewrite visit_moved in H1, H2.
    pose proof (moved_same p q c Hpq) as Hm.
    pose proof (off_screen_same _ _ Hm) as Ho.
    assert (E : crossing (_Pipe.update p (t_speed c))
                = crossing (_Pipe.update q (t_speed c))).
    { destruct Hpq as (Hx & Hw & _ & Hp).
      unfold crossing, _Pipe.trailing, _Pipe.update; cbn.
      rewrite Hx, Hw, Hp. reflexivity. }
    rewrite <- E, <- Ho in H2.
    set (c' := if crossing (_Pipe.update p (t_speed c))
               then on_score c else c) in *.
    destruct (update_pipes l1 c') as [qs1 d1] eqn:E1.
    destruct (update_pipes l2' c') as [qs2 d2] eqn:E2.
    destruct (IH _ _ _ _ _ _ Hrest E1 E2) as (Hd & Hqs).
    destruct (_Pipe.off_screen (moved p c));
      inversion H1; inversion H2; subst; split; auto.
Qed.

Lemma step_same_course a1 a2 s1 s2 g1 g2 r1 r2 s1' s2' g1' g2' :
  same_course s1 s2 ->
  step a1 s1 g1 = Some (r1, s1', g1') ->
  step a2 s2 g2 = Some (r2, s2', g2') ->
  same_course s1' s2' /\ info_score r1 = info_score r2.
Proof.
  intros (Ht & Hs & Hv & Hg & Hp) H1 H2.
  destruct (step_returns _ _ _ _ _ _ H1) as (_ & _ & _ & _ & Hi1 & _).
  destruct (step_returns _ _ _ _ _ _ H2) as (_ & _ & _ & _ & Hi2 & _).
  destruct (step_cases _ _ _ _ _ _ H1)
    as (m1 & c1 & Hsp1 & Hu1 & Hsc1 & Hps1 & Hgp1 & Htk1 & _).
  destruct (step_cases _ _ _ _ _ _ H2)
    as (m2 & c2 & Hsp2 & Hu2 & Hsc2 & Hps2 & Hgp2 & Htk2 & _).
  destruct (spawn_cases _ _ _ _ Hsp1)
    as (_ & _ & Et1 & Ev1 & Eg1 & Es1 & Hc1).
  destruct (spawn_cases _ _ _ _ Hsp2)
    as (_ & _ & Et2 & Ev2 & Eg2 & Es2 & Hc2).
  assert (Hm : Forall2 same_pipe (pipes m1) (pipes m2)).
  { destruct Hc1 as [(N1 & P1 & _) | (Z1 & _ & gy1 & _ & P1)];
      destruct Hc2 as [(N2 & P2 & _) | (Z2 & _ & gy2 & _ & P2)];
      try (rewrite Ht in *; contradiction); rewrite P1, P2.
    - exact Hp.
    - apply Forall2_app; [exact Hp|]. constructor; [|constructor].
      unfold same_pipe, _Pipe.init; cbn. rewrite Hg. auto. }
  rewrite Es1, Ev1, Eg1, Hs, Hv, Hg in Hu1.
  rewrite Es2, Ev2, Eg2 in Hu2.
  destruct (update_pipes_same _ _ _ _ _ _ _ Hm Hu1 Hu2) as (Ec & Hps).
  subst c2. split.
  - unfold same_course. rewrite Htk1, Htk2, Et1, Et2, Ht, Hsc1, Hsc2,
      Hps1, Hps2, Hgp1, Hgp2. auto.
  - rewrite Hi1, Hi2, Hsc1, Hsc2. reflexivity.
Qed.

Lemma steps_same_course actions1 : forall actions2 s1 s2 g1 g2 rs1 rs2
    s1' s2' g1' g2',
  length actions1 = length actions2 ->
  same_course s1 s2 ->
  steps actions1 s1 g1 = Some (rs1, s1', g1') ->
  steps actions2 s2 g2 = Some (rs2, s2', g2') ->
  same_course s1' s2' /\ map info_score rs1 = map info_score rs2.
Proof.
  induction actions1 as [|a1 l1 IH];
    intros [|a2 l2] s1 s2 g1 g2 rs1 rs2 s1' s2' g1' g2' Hlen Hsc H1 H2;
    try discriminate; cbn [steps] in H1, H2.
  - inversion H1; inversion H2; subst. auto.
  - destruct (step a1 s1 g1) as [[[r1 m1] h1]|] eqn:E1; [|discriminate].
    destruct (step a2 s2 g2) as [[[r2 m2] h2]|] eqn:E2; [|discriminate].
    destruct (steps l1 m1 h1) as [[[t1 n1] k1]|] eqn:F1; [|discriminate].
    destruct (steps l2 m2 h2) as [[[t2 n2] k2]|] eqn:F2; [|discriminate].
    inversion H1; inversion H2; subst.
    destruct (step_same_course _ _ _ _ _ _ _ _ _ _ _ _ Hsc E1 E2)
      as (Hm & Hi).
    cbn [length] in Hlen.
    destruct (IH l2 _ _ _ _ _ _ _ _ _ _ (eq_add_S _ _ Hlen) Hm F1 F2)
      as (Hn & Hmap).
    split; [exact Hn|]. cbn [map]. rewrite Hi, Hmap. reflexivity.
Qed.

(** X12. The score does not depend on how the game is played.  Two episodes
    of the same number of steps, whatever their seeds, their actions and the
    generator states, report the same [info["score"]] at every step and end
    with the same score, speed, gap height and pipe positions: pipes scroll
    and are counted whether or not the square has hit anything. *)
Theorem score_independent_of_play
  (seed1 seed2 : option Z) (actions1 actions2 : list Z)
  (self1 self2 : FlappyEnv) (g1 g2 : RandomState)
  (ob1 ob2 : Obs) (rs1 rs2 : list StepResult)
  (end1 end2 : FlappyEnv) (h1 h2 : RandomState) :
  length actions1 = length actions2 ->
  run seed1 actions1 self1 g1 = Some (ob1, rs1, end1, h1) ->
  run seed2 actions2 self2 g2 = Some (ob2, rs2, end2, h2) ->
  map info_score rs1 = map info_score rs2 /\
  score end1 = score end2 /\
  pipe_speed end1 = pipe_speed end2 /\
  gap_h end1 = gap_h end2 /\
  map _Pipe.x (pipes end1) = map _Pipe.x (pipes end2) /\
  map _Pipe.passed (pipes end1) = map _Pipe.passed (pipes end2).
Proof.
  unfold run, reset. intros Hlen H1 H2.
  destruct (steps actions1 _ g1) as [[[t1 n1] k1]|] eqn:F1; [|discriminate].
  destruct (steps actions2 _ g2) as [[[t2 n2] k2]|] eqn:F2; [|discriminate].
  inversion H1; inversion H2; subst.
  assert (H0 : same_course
            (mkEnv (seed_np_random seed1 self1) _Square.init [] 0
                   PIPE_SPEED_START GAP_START 0)
            (mkEnv (seed_np_random seed2 self2) _Square.init [] 0
                   PIPE_SPEED_START GAP_START 0)).
  { unfold same_course; cbn. repeat split; constructor. }
  destruct (steps_same_course _ _ _ _ _ _ _ _ _ _ _ _ Hlen H0 F1 F2)
    as ((_ & Hs & Hv & Hg & Hp) & Hmap).
  split; [exact Hmap|]. split; [exact Hs|]. split; [exact Hv|].
  split; [exact Hg|].
  induction Hp as [|p q l1 l2 (Hx & _ & _ & Hpa) _ (IHx & IHp)]; cbn [map].
  - split; reflexivity.
  - rewrite Hx, Hpa, IHx, IHp. split; reflexivity.
Qed.

(** ** The first pipe *)

(** A loop over pipes none of which reaches [WIDTH // 4] moves every pipe by
    the speed and changes nothing else. *)
Lemma update_pipes_quiet l : forall c,
  Forall (fun p => (float (WIDTH / 4) + t_speed c <= _Pipe.trailing p)%Q) l ->
  update_pipes l c = (map (fun p => _Pipe.update p (t_speed c)) l, c).
Proof.
  induction l as [|p l IH]; intros c H; cbn [update_pipes map].
  - reflexivity.
  - inversion H as [|? ? Hp Hl]; subst. rewrite quarter_width in Hp.
    pose proof (trailing_update p (t_speed c)) as Ht.
    assert (Hge : (120 # 1 <= _Pipe.trailing (_Pipe.update p (t_speed c)))%Q).
    { rewrite Ht. revert Hp. generalize (_Pipe.trailing p) (t_speed c).
      intros t s Hp. lra. }
    assert (E1 : crossing (_Pipe.update p (t_speed c)) = false).
    { destruct (crossing _) eqn:C; [|reflexivity].
      apply crossing_true in C. destruct C as (_ & C).
      exfalso. apply (Qlt_not_le _ _ C Hge). }
    assert (E2 : _Pipe.off_screen (_Pipe.update p (t_speed c)) = false).
    { apply off_screen_false. eapply Qle_trans; [|exact Hge]. discriminate. }
    rewrite visit_unfold. cbv zeta. rewrite E1, E2, (IH c Hl). reflexivity.
Qed.

Lemma float_sub3_540 (t : Z) :
  (float (540 - 3 * t) - (3 # 1) == float (540 - 3 * (t + 1)))%Q.
Proof.
  change (3 # 1)%Q with (float 3). unfold Qminus.
  rewrite <- inject_Z_opp, <- inject_Z_plus. apply inject_Z_injective. lia.
Qed.

Lemma step_quiet a self g r self' g' :
  env_ok self -> quiet self ->
  step a self g = Some (r, self', g') ->
  quiet self'.
Proof.
  intros (Ht0 & _) (Hempty & Hq) Hstep.
  destruct (step_cases _ _ _ _ _ _ Hstep)
    as (s1 & c' & Hspawn & Hu & Hsc & Hps & Hgp & Htick & _).
  destruct (spawn_cases _ _ _ _ Hspawn)
    as (_ & _ & Et & Ev & Eg & Es & Hcases).
  rewrite Et in Htick. split; [lia|]. intro H140.
  destruct Hq as (Hs0 & Hv0 & Hg0 & Hall & Hhead); [lia|].
  rewrite Es, Ev, Eg, Hs0, Hv0, Hg0 in Hu.
  assert (Hpre : Forall (fun p => (float (540 - 3 * tick self)
                                   <= _Pipe.trailing p)%Q) (pipes s1) /\
                 exists p rest, pipes s1 = p :: rest /\
                   (_Pipe.trailing p == float (540 - 3 * tick self))%Q).
  { destruct Hcases as [(Hn & Hp & _) | (Hz & _ & gy & _ & Hp)]; rewrite Hp.
    - split; [exact Hall|]. apply Hhead.
      destruct (Z.eq_dec (tick self) 0) as [E|E]; [|lia].
      rewrite E in Hn. exfalso. apply Hn. reflexivity.
    - assert (Hnew : (float (540 - 3 * tick self)
                      <= _Pipe.trailing (_Pipe.init (float WIDTH) gy
                                                    (gap_h self)))%Q).
      { change (_Pipe.trailing (_Pipe.init (float WIDTH) gy (gap_h self)))
          with (float 480 + float 60)%Q.
        rewrite <- inject_Z_plus, <- Zle_Qle. lia. }
      split.
      + apply Forall_app. split; [exact Hall|].
        constructor; [exact Hnew | constructor].
      + destruct (Z.eq_dec (tick self) 0) as [E|E].
        * rewrite (Hempty E). cbn [app]. do 2 eexists.
          split; [reflexivity|]. rewrite E. reflexivity.
        * destruct Hhead as (p & rest & Epr & Htr); [lia|].
          rewrite Epr. cbn [app]. do 2 eexists.
          split; [reflexivity | exact Htr]. }
  destruct Hpre as (Hall1 & p & rest & Epr & Htr).
  rewrite update_pipes_quiet in Hu.
  2:{ cbn [t_speed]. eapply Forall_impl; [|exact Hall1].
      intros q Hq. cbv beta in Hq. eapply Qle_trans; [|exact Hq].
      change (float (WIDTH / 4) + PIPE_SPEED_START)%Q with (float 123).
      rewrite <- Zle_Qle. lia. }
  injection Hu as Hmap Hc. cbn [t_speed] in Hmap.
  rewrite Hsc, Hps, Hgp, <- Hc. cbn [t_score t_speed t_gap].
  do 3 (split; [reflexivity|]). rewrite Htick. split.
  - apply Forall_forall. intros q Hq. rewrite <- Hmap in Hq.
    apply in_map_iff in Hq. destruct Hq as (q0 & E & Hin). subst q.
    rewrite Forall_forall in Hall1. specialize (Hall1 q0 Hin).
    rewrite trailing_update, <- float_sub3_540.
    unfold PIPE_SPEED_START. revert Hall1.
    generalize (_Pipe.trailing q0) (float (540 - 3 * tick self)).
    intros t b Hb. lra.
  - intros _. rewrite Epr in Hmap. cbn [map] in Hmap.
    do 2 eexists. split; [symmetry; exact Hmap|].
    rewrite trailing_update, Htr, <- float_sub3_540. reflexivity.
Qed.

Lemma reachable_quiet self : reachable self -> quiet self.
Proof.
  induction 1 as [seed self | a self g r self' g' Hr IH Hstep].
  - unfold quiet; cbn. split; [reflexivity|]. intros _.
    repeat split; try constructor. lia.
  - eapply step_quiet; eauto. apply reachable_ok; exact Hr.
Qed.

(** X13. The first point is scored on step 141 exactly, whatever is played
    and whatever the generator draws: up to tick 140 the score is 0 and the
    speed and the gap height are the starting ones; at tick 141 the score is
    1, the speed is the starting speed plus one increment and the gap height
    is 166. *)
Theorem first_point_on_step_141 (self : FlappyEnv) :
  reachable self ->
  (tick self <= 140 ->
   score self = 0 /\ pipe_speed self = PIPE_SPEED_START /\
   gap_h self = GAP_START) /\
  (tick self = 141 ->
   score self = 1 /\
   pipe_speed self = (PIPE_SPEED_START + PIPE_SPEED_INC)%Q /\
   gap_h self = GAP_START - GAP_DEC).
Proof.
  intro Hr. split.
  - intro H. destruct (reachable_quiet _ Hr) as (_ & Hq).
    destruct (Hq H) as (H1 & H2 & H3 & _). auto.
  - destruct Hr as [seed s0 | a s0 g r s' g' Hr0 Hstep]; [discriminate|].
    intro H141.
    destruct (step_cases _ _ _ _ _ _ Hstep)
      as (s1 & c' & Hspawn & Hu & Hsc & Hps & Hgp & Htick & _).
    destruct (spawn_cases _ _ _ _ Hspawn)
      as (_ & _ & Et & Ev & Eg & Es & Hcases).
    assert (H140 : tick s0 = 140) by lia.
    destruct (reachable_quiet _ Hr0) as (_ & Hq).
    destruct Hq as (Hs0 & Hv0 & Hg0 & _ & Hhead); [lia|].
    destruct Hhead as (p & rest & Epr & Htr); [lia|].
    rewrite H140 in Htr. change (float (540 - 3 * 140)) with (120 # 1)%Q in Htr.
    destruct Hcases as [(_ & Hp1 & _) | (Hz & _)];
      [|rewrite H140 in Hz; discriminate].
    rewrite Hp1, Epr, Es, Ev, Eg, Hs0, Hv0, Hg0 in Hu.
    destruct (reachable_ok _ Hr0) as (_ & _ & Hok & _).
    rewrite Epr in Hok. inversion Hok as [|? ? Hpok Hrok]; subst.
    destruct Hpok as (Hw & _ & Hflag & _). rewrite quarter_width in Hflag.
    assert (Hpass : _Pipe.passed p = false).
    { destruct (_Pipe.passed p); [|reflexivity].
      assert (C : (_Pipe.trailing p < 120 # 1)%Q) by (apply Hflag; reflexivity).
      rewrite Htr in C. discriminate. }
    set (c0 := mkTally 0 (- (1 # 100)) PIPE_SPEED_START GAP_START) in *.
    assert (Hcross : crossing (_Pipe.update p (t_speed c0)) = true).
    { apply crossing_true. split; [exact Hpass|].
      rewrite trailing_update, Htr. reflexivity. }
    cbn [update_pipes] in Hu. rewrite visit_moved, Hcross in Hu.
    rewrite update_pipes_quiet in Hu.
    + destruct (_Pipe.off_screen (moved p c0));
        injection Hu as _ Hc; rewrite Hsc, Hps, Hgp, <- Hc;
        cbn [on_score c0 t_score t_speed t_gap]; auto.
    + destruct (reachable_pipes_ok _ Hr0) as (_ & _ & Hsp & _).
      rewrite Epr in Hsp. cbn [spaced] in Hsp.
      destruct (spaced_from_pairs _ _ Hsp) as (Hfar & _).
      rewrite Forall_forall in Hfar, Hrok. apply Forall_forall.
      intros q Hq. specialize (Hfar q Hq). destruct (Hrok q Hq) as (Hwq & _).
      unfold slack in Hfar. rewrite Hpass in Hfar.
      unfold _Pipe.trailing in *. rewrite Hw in Htr. rewrite Hwq.
      change (float 60) with (60 # 1)%Q in *.
      change (float (WIDTH / 4) + t_speed (on_score c0))%Q
        with ((120 # 1) + ((3 # 1) + (15 # 100)))%Q.
      assert (Hsp' : (PIPE_SPACING == 270 # 1)%Q) by reflexivity.
      rewrite Hsp' in Hfar. revert Htr Hfar.
      generalize (_Pipe.x p) (_Pipe.x q). intros x y Htr Hfar. lra.
Qed.

(** ** The further properties at concrete states *)

Lemma live_pipes_fit_witness :
  exists ob rs self g,
    climb 3 = Some (ob, rs, self, g) /\
    forall p, In p (pipes self) ->
      _Pipe.w p = 60 /\
      GAP_MIN <= _Pipe.gap_h p <= GAP_START /\
      60 <= _Pipe.gap_y p /\
      _Pipe.gap_y p + _Pipe.gap_h p <= HEIGHT - 60 /\
      60 <= Rect.h (fst (_Pipe.rects p)) /\
      60 <= Rect.h (snd (_Pipe.rects p)).
Proof.
  do 4 eexists.
  match goal with
  | |- ?A /\ _ => assert (H1 : A) by (vm_compute; reflexivity)
  end.
  exact (conj H1 (live_pipes_fit _ (climb_reachable 3 _ _ _ _ H1))).
Defined.

Lemma live_pipes_on_screen_witness :
  exists ob rs self g,
    climb 3 = Some (ob, rs, self, g) /\
    forall p, In p (pipes self) ->
      _Pipe.off_screen p = false /\
      (0 <= _Pipe.trailing p)%Q /\
      (_Pipe.x p <= float (WIDTH - 3 * phase (tick self)))%Q /\
      (_Pipe.x p <= float (WIDTH - 3))%Q /\
      (tick self mod PIPE_INTERVAL_TICKS = 0 -> (_Pipe.x p <= 210 # 1)%Q).
Proof.
  do 4 eexists.
  match goal with
  | |- ?A /\ _ => assert (H1 : A) by (vm_compute; reflexivity)
  end.
  exact (conj H1 (live_pipes_on_screen _ (climb_reachable 3 _ _ _ _ H1))).
Defined.

Lemma live_pipes_spaced_witness :
  exists ob rs self g,
    climb 92 = Some (ob, rs, self, g) /\
    length (pipes self) = 2%nat /\
    ForallOrdPairs
      (fun p q => (_Pipe.x p + (26985 # 100) <= _Pipe.x q)%Q) (pipes self).
Proof.
  do 4 eexists.
  match goal with
  | |- ?A /\ ?B /\ _ =>
      assert (H1 : A) by (vm_compute; reflexivity);
      assert (H2 : B) by reflexivity
  end.
  exact (conj H1 (conj H2
           (live_pipes_spaced _ (climb_reachable 92 _ _ _ _ H1)))).
Defined.

Lemma at_most_two_pipes_witness :
  exists ob rs self g,
    climb 3 = Some (ob, rs, self, g) /\
    (length (pipes self) <= 2)%nat.
Proof.
  do 4 eexists.
  match goal with
  | |- ?A /\ _ => assert (H1 : A) by (vm_compute; reflexivity)
  end.
  exact (conj H1 (at_most_two_pipes _ (climb_reachable 3 _ _ _ _ H1))).
Defined.

Lemma next_pipe_is_oldest_unpassed_witness :
  exists ob rs self g,
    climb 3 = Some (ob, rs, self, g) /\
    next_pipe (pipes self) = find upcoming (pipes self) /\
    next_pipe (pipes self)
    = find (fun p => negb (_Pipe.passed p)) (pipes self).
Proof.
  do 4 eexists.
  match goal with
  | |- ?A /\ _ => assert (H1 : A) by (vm_compute; reflexivity)
  end.
  exact (conj H1
           (next_pipe_is_oldest_unpassed _ (climb_reachable 3 _ _ _ _ H1))).
Defined.

Lemma survives_iff_in_gap_witness :
  exists ob rs self g r self' g',
    climb 3 = Some (ob, rs, self, g) /\
    step NONE self g = Some (r, self', g') /\
    (terminated r = false <->
     (0 <= _Square.y (square self'))%Q /\
     (_Square.y (square self') + float SQUARE_SIZE <= float HEIGHT)%Q /\
     forall p, In p (pipes self') ->
       in_column p -> in_gap (square self') p).
Proof.
  do 7 eexists.
  match goal with
  | |- ?A /\ ?B /\ _ =>
      assert (H1 : A) by (vm_compute; reflexivity);
      assert (H2 : B) by (vm_compute; reflexivity)
  end.
  exact (conj H1 (conj H2
           (survives_iff_in_gap NONE _ _ _ _ _
              (climb_reachable 3 _ _ _ _ H1) H2))).
Defined.

Lemma reward_decomposition_witness :
  exists ob rs self g r self' g',
    climb 3 = Some (ob, rs, self, g) /\
    step NONE self g = Some (r, self', g') /\
    score self <= score self' /\
    info_score r = score self' /\
    (terminated r = true ->
     (reward r == - (1) + shaping (square self') (pipes self'))%Q) /\
    (terminated r = false ->
     (reward r
      == - (1 # 100) + float (score self' - score self)
         + shaping (square self') (pipes self'))%Q).
Proof.
  do 7 eexists.
  match goal with
  | |- ?A /\ ?B /\ _ =>
      assert (H1 : A) by (vm_compute; reflexivity);
      assert (H2 : B) by (vm_compute; reflexivity)
  end.
  exact (conj H1 (conj H2 (reward_decomposition NONE _ _ _ _ _ H2))).
Defined.


Lemma free_fall_closed_form_witness :
  exists ob rs self g rs' self' g',
    climb 3 = Some (ob, rs, self, g) /\
    steps (repeat NONE 2) self g = Some (rs', self', g') /\
    (_Square.vel (square self')
     == _Square.vel (square self) + GRAVITY * float (Z.of_nat 2))%Q /\
    (_Square.y (square self')
     == _Square.y (square self)
        + float (Z.of_nat 2) * _Square.vel (square self)
        + (GRAVITY / 2) * float (Z.of_nat 2) * (float (Z.of_nat 2) + 1))%Q.
Proof.
  do 7 eexists.
  match goal with
  | |- ?A /\ ?B /\ _ =>
      assert (H1 : A) by (vm_compute; reflexivity);
      assert (H2 : B) by (vm_compute; reflexivity)
  end.
  exact (conj H1 (conj H2 (free_fall_closed_form 2 _ _ _ _ _ H2))).
Defined.

Lemma observation_lower_bounds_witness :
  exists ob rs self g,
    climb 3 = Some (ob, rs, self, g) /\
    (FLAP_STRENGTH + GRAVITY <= _Square.vel (square self))%Q /\
    (- (715 # 1000) <= o2 (_get_obs self))%Q /\
    (0 <= o3 (_get_obs self) <= 1)%Q.
Proof.
  do 4 eexists.
  match goal with
  | |- ?A /\ _ => assert (H1 : A) by (vm_compute; reflexivity)
  end.
  exact (conj H1
           (observation_lower_bounds _ (climb_reachable 3 _ _ _ _ H1))).
Defined.

Lemma observation_leaves_space_witness :
  (29 <= 29 <= 39)%nat /\
  exists rs r self',
    run (Some 42) (repeat NONE 29) constructed (constant_random 0)
    = Some (fst (reset (Some 42) constructed), rs ++ [r], self',
            advance (constant_random 0)) /\
    terminated r = false /\
    (1 < o2 (obs r))%Q /\
    ~ in_observation_space (obs r).
Proof.
  assert (H : (29 <= 29 <= 39)%nat) by lia.
  exact (conj H
           (observation_leaves_space 29 (Some 42) constructed
              (constant_random 0) H)).
Defined.

Lemma score_independent_of_play_witness :
  exists ob1 rs1 end1 h1 ob2 rs2 end2 h2,
    length (repeat NONE 3) = length (repeat FLAP 3) /\
    run None (repeat NONE 3) constructed (constant_random 7)
    = Some (ob1, rs1, end1, h1) /\
    climb 3 = Some (ob2, rs2, end2, h2) /\
    map info_score rs1 = map info_score rs2 /\
    score end1 = score end2 /\
    pipe_speed end1 = pipe_speed end2 /\
    gap_h end1 = gap_h end2 /\
    map _Pipe.x (pipes end1) = map _Pipe.x (pipes end2) /\
    map _Pipe.passed (pipes end1) = map _Pipe.passed (pipes end2).
Proof.
  do 8 eexists.
  match goal with
  | |- ?A /\ ?B /\ ?C /\ _ =>
      assert (H0 : A) by reflexivity;
      assert (H1 : B) by (vm_compute; reflexivity);
      assert (H2 : C) by (vm_compute; reflexivity)
  end.
  exact (conj H0 (conj H1 (conj H2
           (score_independent_of_play None (Some 42) _ _ constructed
              constructed (constant_random 7) (constant_random 0)
              _ _ _ _ _ _ _ _ H0 H1 H2)))).
Defined.

Lemma first_point_on_step_141_witness :
  exists ob rs self g,
    climb 3 = Some (ob, rs, self, g) /\
    tick self <= 140 /\
    score self = 0 /\ pipe_speed self = PIPE_SPEED_START /\
    gap_h self = GAP_START.
Proof.
  do 4 eexists.
  match goal with
  | |- ?A /\ ?B /\ _ =>
      assert (H1 : A) by (vm_compute; reflexivity);
      assert (H2 : B) by (vm_compute; discriminate)
  end.
  exact (conj H1 (conj H2
           (proj1 (first_point_on_step_141 _
                     (climb_reachable 3 _ _ _ _ H1)) H2))).
Defined.

(** ** More on the live pipes *)

(** X14. In every reachable state only the first live pipe can have been
    passed: every other live pipe has its [passed] flag [False] and its
    trailing edge at least 269.85 right of the left screen edge. *)
Theorem only_first_pipe_passed (self : FlappyEnv) :
  reachable self ->
  forall p rest, pipes self = p :: rest ->
    Forall (fun q => _Pipe.passed q = false /\
                     (26985 # 100 <= _Pipe.trailing q)%Q) rest.
Proof.
  intros Hr p rest E.
  destruct (reachable_pipes_ok _ Hr) as (_ & Hpl & Hsp & _).
  destruct (reachable_ok _ Hr) as (_ & _ & Hok & _).
  rewrite E in Hpl, Hsp, Hok. cbn [spaced] in Hsp.
  destruct (spaced_from_pairs _ _ Hsp) as (Hfar & _).
  inversion Hpl as [|? ? (Ho & _) _]; subst.
  inversion Hok as [|? ? (Hw & _) Hrok]; subst.
  apply off_screen_false in Ho. unfold _Pipe.trailing in Ho.
  rewrite Hw in Ho. change (float 60) with (60 # 1)%Q in Ho.
  rewrite Forall_forall in Hfar, Hrok. apply Forall_forall. intros q Hq.
  specialize (Hfar q Hq). destruct (Hrok q Hq) as (Hwq & _ & Hflag & _).
  pose proof (slack_bounds p) as (_ & Hs).
  assert (Hsp' : (PIPE_SPACING == 270 # 1)%Q) by reflexivity.
  rewrite Hsp' in Hfar. unfold PIPE_SPEED_INC in Hs.
  assert (Ht : (26985 # 100 <= _Pipe.trailing q)%Q).
  { unfold _Pipe.trailing. rewrite Hwq. change (float 60) with (60 # 1)%Q.
    revert Ho Hfar Hs. generalize (_Pipe.x p) (_Pipe.x q) (slack p).
    intros x y s Ho Hfar Hs. lra. }
  split; [|exact Ht].
  destruct (_Pipe.passed q); [|reflexivity].
  rewrite quarter_width in Hflag.
  assert (C : (_Pipe.trailing q < 120 # 1)%Q) by (apply Hflag; reflexivity).
  exfalso. apply (Qlt_not_le _ _ C). eapply Qle_trans; [|exact Ht].
  discriminate.
Qed.

Lemma unpassed_le_length ps : 0 <= unpassed ps <= Z.of_nat (length ps).
Proof.
  unfold unpassed. pose proof (filter_length_le
    (fun p => negb (_Pipe.passed p)) ps). lia.
Qed.

(** X15. In every reachable state the score is the number of pipes created
    so far, less at most two: with [n = ceil(tick / 90)] pipes created,
    [n - 2 <= score <= n], and [0 <= score]. *)
Theorem score_tracks_ticks (self : FlappyEnv) :
  reachable self ->
  0 <= score self /\
  (tick self + 89) / 90 - 2 <= score self <= (tick self + 89) / 90.
Proof.
  intro Hr. destruct (reachable_ok _ Hr) as (_ & (Hs & _) & _ & Hn).
  cbn [env_tally t_score] in Hs.
  pose proof (unpassed_le_length (pipes self)) as Hu.
  pose proof (live_pipes_count _ Hr) as Hlen.
  unfold spawned, PIPE_INTERVAL_TICKS in Hn.
  replace (90 - 1) with 89 in Hn by lia. lia.
Qed.

(** ** The random module *)

Lemma step_draw a self g r self' g' :
  step a self g = Some (r, self', g') ->
  tick self' = tick self + 1 /\
  g' = if tick self mod PIPE_INTERVAL_TICKS =? 0 then advance g else g.
Proof.
  intro H. destruct (step_cases _ _ _ _ _ _ H)
    as (s1 & c' & Hspawn & _ & _ & _ & _ & Htick & _).
  destruct (spawn_cases _ _ _ _ Hspawn) as (_ & _ & Et & _ & _ & _ & Hc).
  split; [lia|].
  destruct Hc as [(Hn & _ & Eg) | (Hz & Eg & _)].
  - apply Z.eqb_neq in Hn. rewrite Hn. exact Eg.
  - apply Z.eqb_eq in Hz. rewrite Hz. exact Eg.
Qed.

Lemma steps_draws actions : forall self g rs self' g',
  0 <= tick self ->
  steps actions self g = Some (rs, self', g') ->
  tick self' = tick self + Z.of_nat (length actions) /\
  length rs = length actions /\
  raw g' = raw g /\
  Z.of_nat (drawn g')
  = Z.of_nat (drawn g) + spawned (tick self + Z.of_nat (length actions))
    - spawned (tick self).
Proof.
  induction actions as [|a rest IH]; intros self g rs self' g' Ht H;
    cbn [steps length] in *.
  - inversion H; subst. rewrite Z.add_0_r. repeat split; try lia.
  - destruct (step a self g) as [[[r s1] g1]|] eqn:E; [|discriminate].
    destruct (steps rest s1 g1) as [[[rs1 s2] g2]|] eqn:E2; [|discriminate].
    inversion H; subst. destruct (step_draw _ _ _ _ _ _ E) as (Ht1 & Eg).
    destruct (IH s1 g1 rs1 self' g') as (IH1 & IH2 & IH3 & IH4);
      [lia | exact E2 |].
    pose proof (spawned_succ (tick self) Ht) as Hsucc.
    rewrite Ht1 in IH1, IH4. rewrite Nat2Z.inj_succ.
    replace (tick self + Z.succ (Z.of_nat (length rest)))
      with (tick self + 1 + Z.of_nat (length rest)) by lia.
    cbn [length]. split; [lia|]. split; [lia|].
    destruct (tick self mod PIPE_INTERVAL_TICKS =? 0); subst g1;
      cbn [advance raw drawn] in *; split; try assumption; lia.
Qed.

(** X16. An episode of [n] steps takes exactly [ceil(n / 90)] draws from the
    process-wide [random] module, one on every tick that is a multiple of
    90, and leaves the rest of the generator's sequence untouched; it
    returns one result per action and ends at [tick = n]. *)
Theorem draws_of_an_episode (seed : option Z) (actions : list Z)
  (self : FlappyEnv) (g : RandomState) (ob : Obs) (rs : list StepResult)
  (self' : FlappyEnv) (g' : RandomState) :
  run seed actions self g = Some (ob, rs, self', g') ->
  tick self' = Z.of_nat (length actions) /\
  length rs = length actions /\
  raw g' = raw g /\
  Z.of_nat (drawn g')
  = Z.of_nat (drawn g) + (Z.of_nat (length actions) + 89) / 90.
Proof.
  unfold run, reset. intro H.
  destruct (steps actions _ g) as [[[rs1 s1] g1]|] eqn:E; [|discriminate].
  inversion H; subst.
  apply steps_draws in E; [|cbn; lia].
  destruct E as (H1 & H2 & H3 & H4).
  cbn [tick] in H1, H4. rewrite Z.add_0_l in H1, H4.
  change (spawned 0) with 0 in H4. rewrite Z.sub_0_r in H4.
  unfold spawned, PIPE_INTERVAL_TICKS in H4.
  replace (90 - 1) with 89 in H4 by lia. auto.
Qed.

Lemma draws_of_an_episode_witness :
  exists ob rs self' g',
    climb 3 = Some (ob, rs, self', g') /\
    tick self' = Z.of_nat (length (repeat FLAP 3)) /\
    length rs = length (repeat FLAP 3) /\
    raw g' = raw (constant_random 0) /\
    Z.of_nat (drawn g')
    = Z.of_nat (drawn (constant_random 0))
      + (Z.of_nat (length (repeat FLAP 3)) + 89) / 90.
Proof.
  do 4 eexists.
  match goal with
  | |- ?A /\ _ => assert (H1 : A) by (vm_compute; reflexivity)
  end.
  exact (conj H1
           (draws_of_an_episode (Some 42) (repeat FLAP 3) constructed
              (constant_random 0) _ _ _ _ H1)).
Defined.

(** ** The playback loop *)

Lemma alive_reset seed self : alive (snd (reset seed self)).
Proof. reflexivity. Qed.

Lemma play_safe predict quits fuel : forall k self g ob,
  reachable self -> alive self ->
  steps_alive (fst (play predict quits fuel k self g ob)) /\
  snd (play predict quits fuel k self g ob) <> inl ValueError /\
  ((forall j, quits j = false) ->
   exists self' g' ob',
     snd (play predict quits fuel k self g ob) = inr (self', g', ob')).
Proof.
  induction fuel as [|fuel IH]; intros k self g ob Hr Ha; cbn [play].
  - split; [constructor|]. split; [discriminate|]. intros _.
    do 3 eexists. reflexivity.
  - unfold step_human.
    destruct (step_ok (predict ob) self g (reachable_ok _ Hr))
      as (r & s' & g' & E & _).
    rewrite E.
    assert (Hhere : match Stepped self (predict ob) with
                    | Stepped s _ => reachable s /\ alive s
                    | _ => True
                    end) by (split; assumption).
    destruct (quits k) eqn:Q.
    + cbn [fst snd]. split; [constructor; [exact Hhere | constructor]|].
      split; [discriminate|]. intro Hq. rewrite Hq in Q. discriminate.
    + pose proof (reach_step _ _ _ _ _ _ Hr E) as Hr'.
      destruct (step_returns _ _ _ _ _ _ E) as (_ & _ & _ & Hterm & _).
      destruct (terminated r || truncated r) eqn:T.
      * destruct (reset None s') as [ob0 s0] eqn:R.
        assert (Hs0 : s0 = snd (reset None s')) by (rewrite R; reflexivity).
        destruct (IH (S k) s0 g' ob0) as (I1 & I2 & I3).
        { rewrite Hs0. apply reach_reset. }
        { rewrite Hs0. apply alive_reset. }
        destruct (play predict quits fuel (S k) s0 g' ob0) as [log out].
        cbn [fst snd] in *. split; [|split; assumption].
        constructor; [exact Hhere|]. constructor; [exact I|].
        constructor; [exact I | exact I1].
      * apply orb_false_iff in T. destruct T as (T & _).
        destruct (IH (S k) s' g' (obs r)) as (I1 & I2 & I3).
        { exact Hr'. }
        { unfold alive. rewrite <- Hterm. exact T. }
        destruct (play predict quits fuel (S k) s' g' (obs r)) as [log out].
        cbn [fst snd] in *. split; [|split; assumption].
        constructor; [exact Hhere | exact I1].
Qed.

(** X17. The playback loop of [play_agent.py], for every policy, every
    sequence of window events and any number of iterations: [env.step] is
    only ever called on an object whose episode has not ended (it is fresh
    from [reset], or the previous step returned [done = False]); the loop
    never raises the [ValueError] of the draw; and without a [QUIT] event it
    is still running. *)
Theorem play_agent_steps_live_episodes (predict : Obs -> Z)
  (quits : nat -> bool) (fuel : nat) (self : FlappyEnv) (g : RandomState) :
  steps_alive (fst (play_agent predict quits fuel self g)) /\
  snd (play_agent predict quits fuel self g) <> inl ValueError /\
  ((forall j, quits j = false) ->
   exists self' g' ob',
     snd (play_agent predict quits fuel self g) = inr (self', g', ob')).
Proof.
  unfold play_agent.
  destruct (reset None self) as [ob0 s0] eqn:R.
  assert (Hs0 : s0 = snd (reset None self)) by (rewrite R; reflexivity).
  apply play_safe; rewrite Hs0; [apply reach_reset | apply alive_reset].
Qed.

Lemma only_first_pipe_passed_witness :
  exists ob rs self g p rest,
    climb 92 = Some (ob, rs, self, g) /\
    pipes self = p :: rest /\
    length rest = 1%nat /\
    Forall (fun q => _Pipe.passed q = false /\
                     (26985 # 100 <= _Pipe.trailing q)%Q) rest.
Proof.
  do 6 eexists.
  match goal with
  | |- ?A /\ ?B /\ ?C /\ _ =>
      assert (H1 : A) by (vm_compute; reflexivity);
      assert (H2 : B) by reflexivity;
      assert (H3 : C) by reflexivity
  end.
  exact (conj H1 (conj H2 (conj H3
           (only_first_pipe_passed _ (climb_reachable 92 _ _ _ _ H1)
              _ _ H2)))).
Defined.

Lemma score_tracks_ticks_witness :
  exists ob rs self g,
    climb 3 = Some (ob, rs, self, g) /\
    0 <= score self /\
    (tick self + 89) / 90 - 2 <= score self <= (tick self + 89) / 90.
Proof.
  do 4 eexists.
  match goal with
  | |- ?A /\ _ => assert (H1 : A) by (vm_compute; reflexivity)
  end.
  exact (conj H1 (score_tracks_ticks _ (climb_reachable 3 _ _ _ _ H1))).
Defined.

Lemma play_agent_steps_live_episodes_witness :
  (forall j : nat, (fun _ : nat => false) j = false) /\
  exists self' g' ob',
    snd (play_agent (fun _ => FLAP) (fun _ => false) 3 constructed
           (constant_random 0))
    = inr (self', g', ob').
Proof.
  assert (H : forall j : nat, (fun _ : nat => false) j = false)
    by reflexivity.
  exact (conj H
           (proj2 (proj2 (play_agent_steps_live_episodes
                            (fun _ => FLAP) (fun _ => false) 3 constructed
                            (constant_random 0))) H)).
Defined.

(** ** The score callback in the pipe loop of [step] *)

Lemma update_pipes_speed l : forall c ps c',
  update_pipes l c = (ps, c') -> (t_speed c <= t_speed c')%Q.
Proof.
  induction l as [|p l IH]; intros c ps c' Hu; cbn [update_pipes] in Hu.
  - inversion Hu; subst. apply Qle_refl.
  - pose proof (visit_speed_grows p c) as Hg.
    destruct (visit p c) as [o c1]. cbn [snd] in Hg.
    destruct (update_pipes l c1) as [qs c2] eqn:Hr.
    inversion Hu; subst ps c'; clear Hu.
    eapply Qle_trans; [exact Hg | exact (IH _ _ _ Hr)].
Qed.

(** The loop visits every pipe of its snapshot: each one is moved once, by
    the speed the loop has reached when its turn comes, and it is kept unless
    the move took it off screen. *)
Lemma update_pipes_each l : forall c ps c',
  update_pipes l c = (ps, c') ->
  forall p, In p l ->
    exists ci,
      (t_speed c <= t_speed ci)%Q /\ (t_speed ci <= t_speed c')%Q /\
      (_Pipe.off_screen (moved p ci) = false -> In (moved p ci) ps).
Proof.
  induction l as [|p0 l IH]; intros c ps c' Hu p Hp; cbn [update_pipes] in Hu.
  - destruct Hp.
  - pose proof (visit_speed_grows p0 c) as Hg.
    rewrite visit_moved in Hu, Hg. cbn [snd] in Hg.
    set (c1 := if crossing (_Pipe.update p0 (t_speed c))
               then on_score c else c) in *.
    destruct (update_pipes l c1) as [qs c2] eqn:Hr.
    pose proof (update_pipes_speed _ _ _ _ Hr) as Hg2.
    assert (Hps : forall q, In q qs -> In q ps).
    { intros q Hq.
      destruct (_Pipe.off_screen (moved p0 c));
        inversion Hu; subst ps; [exact Hq | right; exact Hq]. }
    assert (Hc' : c' = c2).
    { destruct (_Pipe.off_screen (moved p0 c)); inversion Hu; reflexivity. }
    subst c'.
    destruct Hp as [E | Hp].
    + subst p0. exists c. split; [apply Qle_refl|].
      split; [eapply Qle_trans; eauto|].
      intro Hoff. rewrite Hoff in Hu. inversion Hu; subst ps.
      left; reflexivity.
    + destruct (IH c1 qs c2 Hr p Hp) as (ci & H1 & H2 & H3).
      exists ci. split; [eapply Qle_trans; eauto|]. split; [exact H2|].
      intro Hoff. apply Hps, H3, Hoff.
Qed.

(** The converse: every pipe the loop keeps is a pipe of the snapshot after
    its turn, taken at a speed between the one the loop started with and the
    one it ended with. *)
Lemma update_pipes_from l : forall c ps c',
  update_pipes l c = (ps, c') ->
  forall q, In q ps ->
    exists p ci,
      In p l /\ q = moved p ci /\
      (t_speed c <= t_speed ci)%Q /\ (t_speed ci <= t_speed c')%Q /\
      _Pipe.off_screen q = false.
Proof.
  induction l as [|p l IH]; intros c ps c' Hu q Hq; cbn [update_pipes] in Hu.
  - inversion Hu; subst. destruct Hq.
  - pose proof (visit_speed_grows p c) as Hg.
    rewrite visit_moved in Hu, Hg. cbn [snd] in Hg.
    set (c1 := if crossing (_Pipe.update p (t_speed c))
               then on_score c else c) in *.
    destruct (update_pipes l c1) as [qs c2] eqn:Hr.
    pose proof (update_pipes_speed _ _ _ _ Hr) as Hg2.
    assert (Hrest : In q qs ->
              exists p0 ci, In p0 (p :: l) /\ q = moved p0 ci /\
                (t_speed c <= t_speed ci)%Q /\ (t_speed ci <= t_speed c2)%Q /\
                _Pipe.off_screen q = false).
    { intro H.
      destruct (IH c1 qs c2 Hr q H) as (p0 & ci & Hin & E & Hs & Hs' & Ho).
      exists p0, ci. split; [right; exact Hin|]. split; [exact E|].
      split; [eapply Qle_trans; eauto|]. split; [exact Hs' | exact Ho]. }
    destruct (_Pipe.off_screen (moved p c)) eqn:Hoff;
      inversion Hu; subst ps c'; clear Hu.
    + apply Hrest; exact Hq.
    + destruct Hq as [E | Hq]; [|apply Hrest; exact Hq].
      subst q. exists p, c. split; [left; reflexivity|].
      split; [reflexivity|]. split; [apply Qle_refl|].
      split; [eapply Qle_trans; eauto | exact Hoff].
Qed.

(** The flag of a pipe after its turn: it stays set, and it is newly set
    exactly when the move put the trailing edge left of WIDTH//4. *)
Lemma moved_flag p c :
  (_Pipe.passed p = true -> _Pipe.passed (moved p c) = true) /\
  (_Pipe.passed p = false ->
   (_Pipe.passed (moved p c) = true <->
    (_Pipe.trailing (moved p c) < float (WIDTH / 4))%Q)).
Proof.
  unfold moved. cbv zeta. rewrite quarter_width.
  destruct (crossing (_Pipe.update p (t_speed c))) eqn:E.
  - apply crossing_true in E. destruct E as (Hf & Hlt).
    split; [intros _; reflexivity|]. intros _.
    rewrite trailing_set_passed. split; intros _; [exact Hlt | reflexivity].
  - split; [intro H; exact H|]. intro Hf. split.
    + intro H. change (_Pipe.passed p = true) in H. congruence.
    + intro Hlt. exfalso.
      assert (C : crossing (_Pipe.update p (t_speed c)) = true)
        by (apply crossing_true; split; [exact Hf | exact Hlt]).
      congruence.
Qed.

(** C7. The score callback adds 1 to the score, [PIPE_SPEED_INC] to the speed
    and lowers the gap height by [GAP_DEC], not below [GAP_MIN].  In one
    iteration of the pipe loop it runs exactly when the pipe is not yet
    flagged and its trailing edge, after the move, is strictly left of
    WIDTH//4, and then the pipe is flagged; a flagged pipe stays flagged and
    never runs it again.  Over an episode a live pipe is flagged exactly when
    its trailing edge is left of WIDTH//4, and the score counts every pipe
    created so far that is not a live unflagged one, once each.  In every
    [step] of an episode the loop takes each pipe of its snapshot (the live
    pipes and the one created on this tick, if any): the pipe moves left by
    the current speed, a set flag stays set, an unset flag is set exactly
    when the move puts the trailing edge strictly left of WIDTH//4, and the
    pipe stays live unless it is off screen; the live pipes after the step
    are these and no others.  The score grows by the number of flags set on
    this tick, one callback for each, and the speed and the gap height
    follow that number. *)
Theorem score_callback_once :
  (forall c,
     on_score c =
     mkTally (t_score c + 1) (t_reward c + 1)%Q
             (t_speed c + PIPE_SPEED_INC)%Q
             (Z.max GAP_MIN (t_gap c - GAP_DEC))) /\
  (forall p c,
     let moved := _Pipe.update p (t_speed c) in
     (_Pipe.passed p = false ->
      (_Pipe.trailing moved < float (WIDTH / 4))%Q ->
      snd (visit p c) = on_score c /\
      forall p', fst (visit p c) = Some p' -> _Pipe.passed p' = true) /\
     (_Pipe.passed p = false ->
      (float (WIDTH / 4) <= _Pipe.trailing moved)%Q ->
      snd (visit p c) = c /\
      forall p', fst (visit p c) = Some p' -> _Pipe.passed p' = false) /\
     (_Pipe.passed p = true ->
      snd (visit p c) = c /\
      forall p', fst (visit p c) = Some p' -> _Pipe.passed p' = true)) /\
  (forall self,
     reachable self ->
     (forall p, In p (pipes self) ->
        (_Pipe.passed p = true <->
         (_Pipe.trailing p < float (WIDTH / 4))%Q)) /\
     score self + unpassed (pipes self) = spawned (tick self) /\
     (pipe_speed self
      == PIPE_SPEED_START + PIPE_SPEED_INC * float (score self))%Q /\
     gap_h self = Z.max GAP_MIN (GAP_START - GAP_DEC * score self)) /\
  (forall a self g r self' g',
     reachable self ->
     step a self g = Some (r, self', g') ->
     exists self1,
       spawn self g = Some (self1, g') /\
       (forall p, In p (pipes self1) ->
          exists s q,
            (pipe_speed self <= s)%Q /\ (s <= pipe_speed self')%Q /\
            _Pipe.x q = (_Pipe.x p - s)%Q /\
            _Pipe.w q = _Pipe.w p /\
            _Pipe.gap_y q = _Pipe.gap_y p /\
            _Pipe.gap_h q = _Pipe.gap_h p /\
            (_Pipe.passed p = true -> _Pipe.passed q = true) /\
            (_Pipe.passed p = false ->
             (_Pipe.passed q = true <->
              (_Pipe.trailing q < float (WIDTH / 4))%Q)) /\
            (_Pipe.off_screen q = false -> In q (pipes self'))) /\
       (forall q, In q (pipes self') ->
          _Pipe.off_screen q = false /\
          exists s p,
            In p (pipes self1) /\
            (pipe_speed self <= s)%Q /\ (s <= pipe_speed self')%Q /\
            _Pipe.x q = (_Pipe.x p - s)%Q /\
            (_Pipe.passed p = true -> _Pipe.passed q = true) /\
            (_Pipe.passed p = false ->
             (_Pipe.passed q = true <->
              (_Pipe.trailing q < float (WIDTH / 4))%Q))) /\
       score self' - score self
       = unpassed (pipes self1) - unpassed (pipes self') /\
       0 <= score self' - score self /\
       (pipe_speed self'
        == pipe_speed self
           + PIPE_SPEED_INC * float (score self' - score self))%Q /\
       gap_h self'
       = Z.max GAP_MIN (gap_h self - GAP_DEC * (score self' - score self))).
Proof.
  split; [reflexivity|]. split; [|split].
  - intros p c moved. rewrite visit_unfold. fold moved. cbv zeta.
    split; [|split].
    + intros Hf Hlt.
      assert (E : crossing moved = true).
      { apply crossing_true. rewrite quarter_width in Hlt. split; assumption. }
      rewrite E. split; [reflexivity|]. simpl.
      intros p' H. destruct (_Pipe.off_screen _); inversion H. reflexivity.
    + intros Hf Hge.
      assert (E : crossing moved = false).
      { destruct (crossing moved) eqn:C; [|reflexivity].
        apply crossing_true in C. destruct C as (_ & C).
        rewrite quarter_width in Hge. exfalso. apply (Qlt_not_le _ _ C Hge). }
      rewrite E. split; [reflexivity|]. simpl.
      intros p' H. destruct (_Pipe.off_screen _); inversion H. exact Hf.
    + intro Ht.
      assert (E : crossing moved = false).
      { unfold crossing. change (_Pipe.passed moved) with (_Pipe.passed p).
        rewrite Ht. reflexivity. }
      rewrite E. split; [reflexivity|]. simpl.
      intros p' H. destruct (_Pipe.off_screen _); inversion H. exact Ht.
  - intros self Hr. apply reachable_ok in Hr.
    destruct Hr as (_ & (_ & Hv & Hg) & Hps & Hn).
    rewrite Forall_forall in Hps.
    split; [|split; [exact Hn | split; [exact Hv | exact Hg]]].
    intros p Hp. apply (Hps p Hp).
  - intros a self g r self' g' Hr Hstep.
    destruct (step_cases _ _ _ _ _ _ Hstep)
      as (self1 & c' & Hsp & Hu & Hsc & Hspd & Hgap & _).
    destruct (spawn_cases _ _ _ _ Hsp) as (_ & _ & _ & Hv1 & Hg1 & Hs1 & _).
    pose proof (reachable_ok _ Hr) as Hok.
    destruct (spawn_ok self g Hok) as (s1 & g1 & Hsp' & _ & _ & _ & _ & Hps1 & _).
    rewrite Hsp in Hsp'. inversion Hsp'; subst s1 g1; clear Hsp'.
    destruct Hok as (_ & Hc & _ & _).
    rewrite Hv1, Hg1, Hs1 in Hu.
    set (c0 := mkTally (score self) (- (1 # 100)) (pipe_speed self)
                       (gap_h self)) in *.
    assert (Hc0 : tally_ok c0) by exact Hc.
    destruct (update_pipes_ok _ _ _ _ Hc0 Hps1 Hu)
      as (Hc' & (Hh & _ & _) & _ & Hn).
    cbn [c0 t_score] in Hh, Hn.
    exists self1. split; [exact Hsp|].
    rewrite Hsc, Hspd, Hgap.
    split; [|split; [|split; [lia | split; [lia | split]]]].
    + intros p Hp.
      destruct (update_pipes_each _ _ _ _ Hu p Hp) as (ci & H1 & H2 & H3).
      destruct (moved_shape p ci) as (Hw & Hgy & Hgh).
      destruct (moved_flag p ci) as (Hf1 & Hf2).
      exists (t_speed ci), (moved p ci).
      split; [exact H1|]. split; [exact H2|].
      split; [apply moved_x|].
      split; [exact Hw|]. split; [exact Hgy|]. split; [exact Hgh|].
      split; [exact Hf1|]. split; [exact Hf2 | exact H3].
    + intros q Hq.
      destruct (update_pipes_from _ _ _ _ Hu q Hq)
        as (p & ci & Hp & E & H1 & H2 & Ho).
      split; [exact Ho|].
      destruct (moved_flag p ci) as (Hf1 & Hf2).
      exists (t_speed ci), p. subst q.
      split; [exact Hp|]. split; [exact H1|]. split; [exact H2|].
      split; [apply moved_x | split; [exact Hf1 | exact Hf2]].
    + destruct Hc' as (_ & Hv' & _). destruct Hc as (_ & Hv & _).
      cbn [env_tally t_speed t_score] in Hv.
      rewrite Hv', Hv. unfold Z.sub.
      rewrite inject_Z_plus, inject_Z_opp. ring.
    + destruct Hc' as (_ & _ & Hg'). destruct Hc as (_ & _ & Hg).
      cbn [env_tally t_gap t_score] in Hg.
      rewrite Hg', Hg. unfold GAP_MIN, GAP_START, GAP_DEC. lia.
Qed.

(** The tick on which the first pipe is passed: the episode of 140 flaps has
    score 0, and the next step takes it to 1. *)
Lemma score_callback_once_witness :
  exists ob rs self g r self' g',
    climb 140 = Some (ob, rs, self, g) /\
    step FLAP self g = Some (r, self', g') /\
    score self = 0 /\
    score self' = 1 /\
    exists self1,
      spawn self g = Some (self1, g') /\
      (forall p, In p (pipes self1) ->
         exists s q,
           (pipe_speed self <= s)%Q /\ (s <= pipe_speed self')%Q /\
           _Pipe.x q = (_Pipe.x p - s)%Q /\
           _Pipe.w q = _Pipe.w p /\
           _Pipe.gap_y q = _Pipe.gap_y p /\
           _Pipe.gap_h q = _Pipe.gap_h p /\
           (_Pipe.passed p = true -> _Pipe.passed q = true) /\
           (_Pipe.passed p = false ->
            (_Pipe.passed q = true <->
             (_Pipe.trailing q < float (WIDTH / 4))%Q)) /\
           (_Pipe.off_screen q = false -> In q (pipes self'))) /\
      (forall q, In q (pipes self') ->
         _Pipe.off_screen q = false /\
         exists s p,
           In p (pipes self1) /\
           (pipe_speed self <= s)%Q /\ (s <= pipe_speed self')%Q /\
           _Pipe.x q = (_Pipe.x p - s)%Q /\
           (_Pipe.passed p = true -> _Pipe.passed q = true) /\
           (_Pipe.passed p = false ->
            (_Pipe.passed q = true <->
             (_Pipe.trailing q < float (WIDTH / 4))%Q))) /\
      score self' - score self
      = unpassed (pipes self1) - unpassed (pipes self') /\
      0 <= score self' - score self /\
      (pipe_speed self'
       == pipe_speed self
          + PIPE_SPEED_INC * float (score self' - score self))%Q /\
      gap_h self'
      = Z.max GAP_MIN (gap_h self - GAP_DEC * (score self' - score self)).
Proof.
  do 7 eexists.
  match goal with
  | |- ?A /\ ?B /\ ?C /\ ?D /\ _ =>
      assert (H1 : A) by (vm_compute; reflexivity);
      assert (H2 : B) by (vm_compute; reflexivity);
      assert (H3 : C) by reflexivity;
      assert (H4 : D) by reflexivity
  end.
  exact (conj H1 (conj H2 (conj H3 (conj H4
           (proj2 (proj2 (proj2 score_callback_once)) _ _ _ _ _ _
              (climb_reachable 140 _ _ _ _ H1) H2))))).
Defined.
